(** * chomp-shell: the interactive CHOMP driver, embedded in Rocq

    A shallow embedding of [src/chomp-shell.cpp]: the module-scope state of the
    driver (trajectory, start and goal configuration, obstacle matrix, mode,
    grab state, robots) is one record, and every function of the file that
    touches it is a computation in a small state-and-failure monad.  Scalars
    are binary64 floats ([double] in the source), vectors are lists of floats,
    and an [Eigen::MatrixXd] is a column-major list of columns. *)

From stdpp Require Import base list.
From Stdlib Require Import ZArith Lia.
From Stdlib Require Import Floats.PrimFloat Floats.SpecFloat Floats.FloatOps
  Floats.FloatAxioms.

Local Open Scope Z_scope.

(* A decimal literal denotes the nearest double, as it does in C++. *)
#[local] Set Warnings "-inexact-float".

(** ** Scalars, vectors and matrices *)

(** [typedef Eigen::VectorXd Vector]: a dynamically sized vector of doubles. *)
Definition Vector : Type := list float.

(** [typedef Eigen::MatrixXd Matrix]: a dynamically sized matrix, stored
    column by column as Eigen does by default.  [mrows] is [rows()], the
    length of [mcolumns] is [cols()]. *)
Record Matrix : Type := mkMatrix {
  mrows : nat;
  mcolumns : list (list float)
}.

Definition cols (m : Matrix) : nat := length (mcolumns m).

(** A default-constructed [Matrix] has no rows and no columns. *)
Definition empty_matrix : Matrix := mkMatrix 0 [].

(** Every column holds [mrows] coefficients. *)
Definition wf_matrix (m : Matrix) : Prop :=
  Forall (fun c => length c = mrows m) (mcolumns m).

(** The value read from storage that [conservativeResize] appended and nobody
    has written yet.  C++ leaves it indeterminate; the model fixes one
    value, and [add_obs_columns] below shows that [add_obs] overwrites every
    such coefficient of an obstacle matrix before it can be read. *)
Definition uninitialized : float := 0%float.

(** [m.conservativeResize(r, c)]: the result is [r] x [c], and the coefficients
    in the overlap with the old matrix keep their values. *)
Definition resize_column (r : nat) (c : list float) : list float :=
  take r c ++ replicate (r - length c) uninitialized.

Definition conservativeResize (r c : nat) (m : Matrix) : Matrix :=
  mkMatrix r
    (map (resize_column r) (take c (mcolumns m))
       ++ replicate (c - cols m) (replicate r uninitialized)).

(** [m(i, j)], with Eigen's range assertion: [None] when it fails. *)
Definition coeff (i j : nat) (m : Matrix) : option float :=
  if decide (i < mrows m)%nat then
    match mcolumns m !! j with
    | Some c => c !! i
    | None => None
    end
  else None.

(** [m(i, j) = v], with Eigen's range assertion. *)
Definition set_coeff (i j : nat) (v : float) (m : Matrix) : option Matrix :=
  if decide (i < mrows m)%nat then
    match mcolumns m !! j with
    | Some c => Some (mkMatrix (mrows m) (<[j := <[i := v]> c]> (mcolumns m)))
    | None => None
    end
  else None.

(** [m.block(i0, j, n, 1)] read as a vector: [n] coefficients of column [j]
    from row [i0] on. *)
Definition block_col (i0 j n : nat) (m : Matrix) : option Vector :=
  if decide (i0 + n <= mrows m)%nat then
    match mcolumns m !! j with
    | Some c => Some (take n (drop i0 c))
    | None => None
    end
  else None.

(** [m.block(i0, j, n, 1) << v0, v1, ...]: the comma initializer fills the
    block with the [n] values given. *)
Definition write_block_col (i0 j : nat) (vs : list float) (m : Matrix)
  : option Matrix :=
  if decide (i0 + length vs <= mrows m)%nat then
    match mcolumns m !! j with
    | Some c =>
        Some (mkMatrix (mrows m)
                (<[j := take i0 c ++ vs ++ drop (i0 + length vs) c]> (mcolumns m)))
    | None => None
    end
  else None.

(** [v.block(i0, 0, n, 1)] on a vector. *)
Definition vblock (i0 n : nat) (v : Vector) : option Vector :=
  if decide (i0 + n <= length v)%nat then Some (take n (drop i0 v)) else None.

(** ** Constants of the driver *)

Definition cdim : nat := 2.      (* dimension of config space *)
Definition nq : nat := 20.       (* number of q stacked into xi *)
Definition obs_dim : nat := 3.   (* x,y,R *)

(** [size_t] is 64 bits wide; a conversion to it wraps around. *)
Definition to_size_t (z : Z) : Z := z mod 2 ^ 64.

(** ** The state of the driver *)

Inductive Mode : Type := PAUSE | STEP | RUN.

(** [class Robot]: one position (the static [radius_] is only drawn). *)
Record Robot : Type := mkRobot { position_ : Vector }.

(** [Robot ()] initialises [position_] with [Vector::Zero(2)]. *)
Definition new_Robot : Robot := mkRobot [0%float; 0%float].

(** Modelled from the spec: the state the optimizer keeps between calls.  The
    implementation of [chomp::run_chomp] ([chomp.hpp] and its source file) is
    not part of the driver; section 3 of the specification makes the
    smoothness metric "the sole quantity cached across iterations", keyed by
    [(nq, cdim)].  The two counters are ghost state: [calls] counts the
    invocations of [run_chomp] and [grad_evals] the gradient computations, so
    that statements about what was attempted can be written down. *)
Record ChompInternal : Type := mkChomp {
  metric_cache : option (nat * nat * Matrix);
  calls : nat;
  grad_evals : nat
}.

(** The variables at module scope of [chomp-shell.cpp]. *)
Record State : Type := mkState {
  xi : Vector;            (* the trajectory (q_1, q_2, ...q_n) *)
  qs : Vector;            (* the start config a.k.a. q_0 *)
  qe : Vector;            (* the end config a.k.a. q_(n+1) *)
  obs : Matrix;           (* each column is (x,y,R) of an obstacle *)
  state : Mode;
  grabbed : Z;            (* a [size_t] *)
  grab_offset : Vector;
  rstart : Robot;
  rend : Robot;
  robots : list Robot;
  chomp : ChompInternal
}.

Definition set_xi (v : Vector) (s : State) : State :=
  mkState v (qs s) (qe s) (obs s) (state s) (grabbed s) (grab_offset s)
    (rstart s) (rend s) (robots s) (chomp s).
Definition set_obs (m : Matrix) (s : State) : State :=
  mkState (xi s) (qs s) (qe s) m (state s) (grabbed s) (grab_offset s)
    (rstart s) (rend s) (robots s) (chomp s).
Definition set_state (md : Mode) (s : State) : State :=
  mkState (xi s) (qs s) (qe s) (obs s) md (grabbed s) (grab_offset s)
    (rstart s) (rend s) (robots s) (chomp s).
Definition set_grabbed (g : Z) (s : State) : State :=
  mkState (xi s) (qs s) (qe s) (obs s) (state s) g (grab_offset s)
    (rstart s) (rend s) (robots s) (chomp s).
Definition set_grab_offset (v : Vector) (s : State) : State :=
  mkState (xi s) (qs s) (qe s) (obs s) (state s) (grabbed s) v
    (rstart s) (rend s) (robots s) (chomp s).
Definition set_rstart (r : Robot) (s : State) : State :=
  mkState (xi s) (qs s) (qe s) (obs s) (state s) (grabbed s) (grab_offset s)
    r (rend s) (robots s) (chomp s).
Definition set_rend (r : Robot) (s : State) : State :=
  mkState (xi s) (qs s) (qe s) (obs s) (state s) (grabbed s) (grab_offset s)
    (rstart s) r (robots s) (chomp s).
Definition set_robots (rs : list Robot) (s : State) : State :=
  mkState (xi s) (qs s) (qe s) (obs s) (state s) (grabbed s) (grab_offset s)
    (rstart s) (rend s) rs (chomp s).
Definition set_chomp (c : ChompInternal) (s : State) : State :=
  mkState (xi s) (qs s) (qe s) (obs s) (state s) (grabbed s) (grab_offset s)
    (rstart s) (rend s) (robots s) c.

(** ** Failures and the monad of the driver *)

(** How a call can stop early.  [EigenAssert] is a failed range assertion of
    Eigen (an access outside a vector, a matrix or a block), [StdVectorRange]
    an index outside a [std::vector], [Errx_Robot_update n] the
    [errx (EXIT_FAILURE, ...)] of [Robot::update] with the offending size;
    the other two are the error kinds that section 4.4 of the specification
    lets the optimizer fail with. *)
Inductive Error : Type :=
  | EigenAssert
  | StdVectorRange
  | Errx_Robot_update (dof : nat)
  | DimensionError
  | SingularMetricError.

Inductive outcome (A : Type) : Type :=
  | Ok (a : A)
  | Fail (e : Error).
Arguments Ok {A} a.
Arguments Fail {A} e.

(** A computation reads and writes the state and either returns or fails; the
    state a failure leaves behind is the state at the point of the failure. *)
Definition M (A : Type) : Type := State -> outcome A * State.

Definition ret {A} (a : A) : M A := fun s => (Ok a, s).
Definition fail {A} (e : Error) : M A := fun s => (Fail e, s).
Definition bind {A B} (c : M A) (k : A -> M B) : M B :=
  fun s =>
    match c s with
    | (Ok a, s') => k a s'
    | (Fail e, s') => (Fail e, s')
    end.
Definition get : M State := fun s => (Ok s, s).
Definition modify (f : State -> State) : M unit := fun s => (Ok tt, f s).

(** An operation that Eigen guards with an assertion. *)
Definition asserted {A} (o : option A) : M A :=
  match o with
  | Some a => ret a
  | None => fail EigenAssert
  end.

Notation "x <- c ;; k" := (bind c (fun x => k))
  (at level 200, c at level 99, k at level 200, only parsing).
Notation "c ;;; k" := (bind c (fun _ => k))
  (at level 200, k at level 200, only parsing).

(** A [for] loop over the indices [iis] whose body answers [true] when it
    executes [break]. *)
Fixpoint for_break (iis : list nat) (body : nat -> M bool) : M unit :=
  match iis with
  | [] => ret tt
  | ii :: rest =>
      stop <- body ii ;;
      if (stop : bool) then ret tt else for_break rest body
  end.

(** A [for] loop without [break]. *)
Fixpoint for_each (iis : list nat) (body : nat -> M unit) : M unit :=
  match iis with
  | [] => ret tt
  | ii :: rest => body ii ;;; for_each rest body
  end.

(** ** Obstacles *)

(** [add_obs]: grow the matrix by one column with [conservativeResize], then
    fill the last column with [px, py, radius]. *)
Definition add_obs (px py radius : float) : M unit :=
  s <- get ;;
  let resized := conservativeResize obs_dim (cols (obs s) + 1) (obs s) in
  filled <- asserted
    (write_block_col 0 (cols resized - 1) [px; py; radius] resized) ;;
  modify (set_obs filled).

(** ** Robots (one per waypoint) *)

(** [Robot::update]: [errx] unless the position has two components. *)
Definition Robot_update (position : Vector) (r : Robot) : outcome unit * Robot :=
  if decide (length position ≠ 2%nat)
  then (Fail (Errx_Robot_update (length position)), r)
  else (Ok tt, mkRobot position).

(** [Robot_update] on a robot that lives in the state. *)
Definition update_in (rd : State -> Robot) (wr : Robot -> State -> State)
    (position : Vector) : M unit :=
  fun s =>
    match Robot_update position (rd s) with
    | (o, r) => (o, wr r s)
    end.

(** [robots[ii]] as an lvalue. *)
Definition update_robot_at (ii : nat) (position : Vector) : M unit :=
  fun s =>
    match robots s !! ii with
    | Some r0 =>
        match Robot_update position r0 with
        | (o, r) => (o, set_robots (<[ii := r]> (robots s)) s)
        end
    | None => (Fail StdVectorRange, s)
    end.

(** [robots.resize (n)]: truncate, or append default-constructed robots. *)
Definition resize_robots (n : nat) (rs : list Robot) : list Robot :=
  take n rs ++ replicate (n - length rs) new_Robot.

Definition update_robots : M unit :=
  s <- get ;;
  update_in rstart set_rstart (qs s) ;;;
  update_in rend set_rend (qe s) ;;;
  (if decide (nq ≠ length (robots s))
   then modify (fun s => set_robots (resize_robots nq (robots s)) s)
   else ret tt) ;;;
  for_each (seq 0 nq) (fun ii =>
    s <- get ;;
    position <- asserted (vblock (ii * cdim) cdim (xi s)) ;;
    update_robot_at ii position).

(** ** Arithmetic on vectors and matrices of doubles *)

Definition vzero (n : nat) : Vector := replicate n 0%float.
Definition vadd (u v : Vector) : Vector := zip_with PrimFloat.add u v.
Definition vsub (u v : Vector) : Vector := zip_with PrimFloat.sub u v.
Definition vscale (a : float) (v : Vector) : Vector := map (PrimFloat.mul a) v.

(** [v.squaredNorm()] and [v.norm()]: Eigen reduces the squares from the first
    coefficient on and answers zero for an empty vector. *)
Definition squaredNorm (v : Vector) : float :=
  match map (fun x => PrimFloat.mul x x) v with
  | [] => 0%float
  | x :: rest => fold_left PrimFloat.add rest x
  end.
Definition norm (v : Vector) : float := PrimFloat.sqrt (squaredNorm v).

(** [v[i] -= x], with Eigen's range assertion. *)
Definition vsub_at (i : nat) (x : float) (v : Vector) : option Vector :=
  match v !! i with
  | Some vi => Some (<[i := PrimFloat.sub vi x]> v)
  | None => None
  end.

(** Matrix times vector, accumulated column by column. *)
Definition mat_vec (a : Matrix) (x : Vector) : Vector :=
  fold_left (fun acc cx => vadd acc (vscale (snd cx) (fst cx)))
    (zip (mcolumns a) x) (vzero (mrows a)).

Definition transpose (a : Matrix) : Matrix :=
  mkMatrix (cols a)
    (map (fun i => map (fun c => nth i c 0%float) (mcolumns a))
       (seq 0 (mrows a))).

Definition mat_mul (a b : Matrix) : Matrix :=
  mkMatrix (mrows a) (map (mat_vec a) (mcolumns b)).

(** ** The optimizer, from its specification *)

(** Modelled from the spec: the finite-difference operator [D] of section 4.2,
    "a fixed banded difference operator of size (nq*cdim) x (nq*cdim)
    implementing consecutive differences per cdim-block" in the first-order
    forward scheme: row [i] of [D xi] is [xi (i + cdim) - xi i].  Its source
    ([chomp.hpp] and the file that implements it) is not part of the driver. *)
Definition difference_coeff (cd i j : nat) : float :=
  if decide (j = i) then (-1)%float
  else if decide (j = (i + cd)%nat) then 1%float
  else 0%float.

(** Modelled from the spec: the matrix [D] with these coefficients, of size
    [n * cd]. *)
Definition difference_operator (cd n : nat) : Matrix :=
  mkMatrix (n * cd)
    (map (fun j => map (fun i => difference_coeff cd i j) (seq 0 (n * cd)))
       (seq 0 (n * cd))).

(** Modelled from the spec: the smoothness metric [A = D^T D] of section 4.2,
    a function of [nq] and [cdim] alone. *)
Definition smoothness_metric (cd n : nat) : Matrix :=
  mat_mul (transpose (difference_operator cd n)) (difference_operator cd n).

(** Modelled from the spec: the obstacle set the optimizer reads, one
    obstacle [(x, y, R)] per column of the matrix it is handed.  A column that
    does not hold three coefficients is no obstacle. *)
Definition obstacle_of (c : list float) : option (float * float * float) :=
  match c with
  | [x; y; r] => Some (x, y, r)
  | _ => None
  end.

(** Modelled from the spec: the obstacle set of a matrix, in the order of
    its columns. *)
Definition obstacles_of (m : Matrix) : list (float * float * float) :=
  omap obstacle_of (mcolumns m).

(** Modelled from the spec: the waypoints of a trajectory (section 3),
    waypoint [i] being the slice from [i * cd] to [(i + 1) * cd]. *)
Definition waypoint (cd i : nat) (x : Vector) : Vector :=
  take cd (drop (i * cd) x).

Definition waypoints (cd n : nat) (x : Vector) : list Vector :=
  map (fun i => waypoint cd i x) (seq 0 n).

Section Shell.

(** The mouse flags of [gfx.hpp], which is not part of the driver's file. *)
Variables MOUSE_PRESS MOUSE_RELEASE MOUSE_DRAG MOUSE_B3 : Z.

(** What section 4 of the specification leaves open: the step size [eta],
    the weight [lambda] of the obstacle term, the safety margin of the
    obstacle cost, the boundary vector [b] built from start and goal, and
    the linear solver. *)
Variables eta lambda margin : float.
Variable boundary : nat -> nat -> Vector -> Vector -> Vector.
Variable solve : Matrix -> Vector -> Vector.

(** Modelled from the spec: the gradient of the smoothness cost,
    [A xi + D^T b] (section 4.2); the optimizer's source is not part of the
    driver. *)
Definition smooth_gradient (cd n : nat) (a : Matrix) (start goal x : Vector)
  : Vector :=
  vadd (mat_vec a x)
       (mat_vec (transpose (difference_operator cd n))
                (boundary cd n start goal)).

(** Modelled from the spec: what one obstacle adds to the gradient at one
    waypoint (section 4.3; the optimizer's source is not part of the driver).
    The cost is [c(x) = max(0, R - |x - center|)] per unit of the safety
    margin: the term is zero outside the disk, and inside it the unit vector
    from the centre to the waypoint scaled by the derivative of the cost
    along it, [-1 / margin]. *)
Definition obstacle_term (cd : nat) (q : Vector) (o : float * float * float)
  : Vector :=
  let '(x, y, r) := o in
  let delta := vsub q [x; y] in
  let d := norm delta in
  if PrimFloat.ltb d r
  then take cd (vscale (PrimFloat.div (PrimFloat.div (-1)%float margin) d) delta
                  ++ vzero cd)
  else vzero cd.

(** Modelled from the spec: the obstacle gradient at one waypoint, the sum
    of the terms of all obstacles (section 4.3), taken in the order of the
    set. *)
Definition obstacle_gradient_at (cd : nat) (os : list (float * float * float))
    (q : Vector) : Vector :=
  fold_left (fun acc o => vadd acc (obstacle_term cd q o)) os (vzero cd).

(** Modelled from the spec: the obstacle gradient of a trajectory,
    recomputed for every waypoint on every call (section 4.3). *)
Definition obstacle_gradient (cd n : nat) (os : list (float * float * float))
    (x : Vector) : Vector :=
  concat (map (obstacle_gradient_at cd os) (waypoints cd n x)).

(** Modelled from the spec: the update of section 4.4 given its two gradient
    terms: [g = smooth + lambda * obstacle], [delta = A^-1 g] by a solve,
    [xi - (1 / eta) * delta]. *)
Definition chomp_update (a : Matrix) (x g_smooth g_obstacle : Vector)
  : Vector :=
  let g := vadd g_smooth (vscale lambda g_obstacle) in
  let delta := solve a g in
  vsub x (vscale (PrimFloat.div 1%float eta) delta).

(** Modelled from the spec: one descent step (section 4.4, steps 1 to 3). *)
Definition chomp_step (cd n : nat) (a : Matrix) (start goal x : Vector)
    (os : list (float * float * float)) : Vector :=
  chomp_update a x (smooth_gradient cd n a start goal x)
                   (obstacle_gradient cd n os x).

(** Modelled from the spec: the writes to the optimizer's internals, the two
    ghost counters and the cache. *)
Definition count_call (c : ChompInternal) : ChompInternal :=
  mkChomp (metric_cache c) (S (calls c)) (grad_evals c).
Definition count_gradient (c : ChompInternal) : ChompInternal :=
  mkChomp (metric_cache c) (calls c) (S (grad_evals c)).
Definition store_metric (cd n : nat) (a : Matrix) (c : ChompInternal)
  : ChompInternal :=
  mkChomp (Some (cd, n, a)) (calls c) (grad_evals c).

(** Modelled from the spec: the metric is computed once per [(nq, cdim)] and
    reused afterwards (sections 3 and 4.2). *)
Definition cached_metric (cd n : nat) : M Matrix :=
  s <- get ;;
  match metric_cache (chomp s) with
  | Some (cd', n', a) =>
      if decide (cd' = cd /\ n' = n) then ret a
      else
        let a := smoothness_metric cd n in
        modify (fun s => set_chomp (store_metric cd n a (chomp s)) s) ;;;
        ret a
  | None =>
      let a := smoothness_metric cd n in
      modify (fun s => set_chomp (store_metric cd n a (chomp s)) s) ;;;
      ret a
  end.

(** Modelled from the spec: [run_chomp (start, goal, trajectory, obstacles)]
    of sections 4.4, 6 and 7, whose source ([chomp.hpp] and the file that
    implements it) is not part of the driver.  It is called on the driver's
    [qs], [qe], [xi] and [obs] for a trajectory of [n] waypoints of
    dimension [cd].  The sizes are checked first ([DimensionError]), then
    the degenerate length ([SingularMetricError], before the metric is
    constructed); then one descent step is written to [xi]. *)
Definition run_chomp (cd n : nat) : M unit :=
  modify (fun s => set_chomp (count_call (chomp s)) s) ;;;
  s <- get ;;
  if decide (length (qs s) ≠ cd \/ length (qe s) ≠ cd
             \/ length (xi s) ≠ (n * cd)%nat)
  then fail DimensionError
  else if decide (n = 0%nat) then fail SingularMetricError
  else
    a <- cached_metric cd n ;;
    modify (fun s => set_chomp (count_gradient (chomp s)) s) ;;;
    modify (set_xi (chomp_step cd n a (qs s) (qe s) (xi s)
                      (obstacles_of (obs s)))).

(** ** The callbacks of the driver *)

Definition cb_step : M unit := modify (set_state STEP).

(** The bodies of [cb_run] and [cb_jumble] are commented out. *)
Definition cb_run : M unit := ret tt.
Definition cb_jumble : M unit := ret tt.

Definition cb_idle : M unit :=
  s <- get ;;
  match state s with
  | PAUSE => ret tt
  | _ => run_chomp cdim nq ;;; update_robots
  end.

(** [flags & mask] as a condition. *)
Definition flag_set (flags mask : Z) : bool :=
  negb (Z.land flags mask =? 0).

(** The body of the loop of the press branch, for the obstacle [ii]; it
    answers [true] when it reaches [break]. *)
Definition try_grab (px py : float) (ii : nat) : M bool :=
  s <- get ;;
  offset <- asserted (block_col 0 ii 2 (obs s)) ;;
  offset <- asserted (vsub_at 0 px offset) ;;
  offset <- asserted (vsub_at 1 py offset) ;;
  radius <- asserted (coeff 2 ii (obs s)) ;;
  if PrimFloat.leb (norm offset) radius then
    modify (set_grab_offset offset) ;;;
    modify (set_grabbed (to_size_t (Z.of_nat ii))) ;;;
    modify (set_state RUN) ;;;
    ret true
  else ret false.

(** The drag branch: move the grabbed obstacle, unless [grabbed] is
    [(size_t)(-1)]. *)
Definition drag (px py : float) : M unit :=
  s <- get ;;
  if negb (to_size_t (-1) =? grabbed s) then
    g0 <- asserted (grab_offset s !! 0%nat) ;;
    m0 <- asserted
      (set_coeff 0 (Z.to_nat (grabbed s)) (PrimFloat.add px g0) (obs s)) ;;
    modify (set_obs m0) ;;;
    g1 <- asserted (grab_offset s !! 1%nat) ;;
    m1 <- asserted
      (set_coeff 1 (Z.to_nat (grabbed s)) (PrimFloat.add py g1) m0) ;;
    modify (set_obs m1)
  else ret tt.

Definition cb_mouse (px py : float) (flags : Z) : M unit :=
  if flag_set flags MOUSE_RELEASE && flag_set flags MOUSE_B3 then
    (* add new obstacle at that location *)
    add_obs px py 2%float
  else if flag_set flags MOUSE_PRESS then
    s <- get ;;
    for_break (seq 0 (cols (obs s))) (try_grab px py)
  else if flag_set flags MOUSE_DRAG then
    drag px py
  else if flag_set flags MOUSE_RELEASE then
    modify (set_grabbed (to_size_t (-1))) ;;;
    modify (set_state PAUSE)
  else ret tt.

(** ** Drawing *)

(** The calls of the drawing interface of [gfx.hpp], with their arguments;
    what [cb_draw] hands to it is the list of its calls, in order. *)
Inductive GfxCmd : Type :=
  | gfx_set_view (x0 y0 x1 y1 : float)
  | gfx_set_pen (width red green blue alpha : float)
  | gfx_fill_arc (cx cy rr a0 a1 : float)
  | gfx_draw_arc (cx cy rr a0 a1 : float)
  | gfx_draw_line (x0 y0 x1 y1 : float)
  | gfx_draw_point (x y : float).

(** [M_PI] of [math.h], the double nearest to pi, and [2.0 * M_PI]. *)
Definition M_PI : float := 0x1.921fb54442d18p+1%float.
Definition full_turn : float := PrimFloat.mul 2%float M_PI.

(** [Robot::radius_]. *)
Definition Robot_radius_ : float := 0.5%float.

(** [Robot::draw]: a translucent disk and a thick outline at [position_];
    [None] when [position_[0]] or [position_[1]] is out of range. *)
Definition Robot_draw (r : Robot) : option (list GfxCmd) :=
  x ← position_ r !! 0%nat;
  y ← position_ r !! 1%nat;
  Some [gfx_set_pen 1%float 0.7%float 0.7%float 0.7%float 0.5%float;
        gfx_fill_arc x y Robot_radius_ 0%float full_turn;
        gfx_set_pen 3%float 0.2%float 0.2%float 0.2%float 1%float;
        gfx_draw_arc x y Robot_radius_ 0%float full_turn].

(** [if (v < bmin[ii]) bmin[ii] = v] and [if (v > bmax[ii]) bmax[ii] = v]. *)
Definition lower_to (v : float) (ii : nat) (bmin : Vector) : option Vector :=
  b ← bmin !! ii;
  Some (if PrimFloat.ltb v b then <[ii := v]> bmin else bmin).

Definition raise_to (v : float) (ii : nat) (bmax : Vector) : option Vector :=
  b ← bmax !! ii;
  Some (if PrimFloat.ltb b v then <[ii := v]> bmax else bmax).

(** Both tests for one coordinate [v], itself read from a vector. *)
Definition widen (v : option float) (ii : nat) (bb : Vector * Vector)
  : option (Vector * Vector) :=
  x ← v;
  bmin ← lower_to x ii (fst bb);
  bmax ← raise_to x ii (snd bb);
  Some (bmin, bmax).

(** The inner loop of the bounds, over the waypoints [jjs]. *)
Fixpoint widen_waypoints (x : Vector) (ii : nat) (jjs : list nat)
    (bb : Vector * Vector) : option (Vector * Vector) :=
  match jjs with
  | [] => Some bb
  | jj :: rest =>
      bb' ← widen (x !! (ii + cdim * jj)%nat) ii bb;
      widen_waypoints x ii rest bb'
  end.

(** The outer loop of the bounds, over the axes [iis]. *)
Fixpoint view_axes (s : State) (iis : list nat) (bb : Vector * Vector)
  : option (Vector * Vector) :=
  match iis with
  | [] => Some bb
  | ii :: rest =>
      bb1 ← widen (qe s !! ii) ii bb;
      bb2 ← widen_waypoints (xi s) ii (seq 0 nq) bb1;
      view_axes s rest bb2
  end.

(** The first part of [cb_draw]: [bmin] and [bmax] start as copies of [qs]
    and are widened over the goal and the waypoints, axis by axis. *)
Definition view_bounds (s : State) : option (Vector * Vector) :=
  view_axes s (seq 0 2) (qs s, qs s).

(** [gfx::set_view] on the bounds, two units wider on every side. *)
Definition draw_view (bb : Vector * Vector) : option GfxCmd :=
  lo0 ← fst bb !! 0%nat;
  lo1 ← fst bb !! 1%nat;
  hi0 ← snd bb !! 0%nat;
  hi1 ← snd bb !! 1%nat;
  Some (gfx_set_view (PrimFloat.sub lo0 2%float) (PrimFloat.sub lo1 2%float)
                     (PrimFloat.add hi0 2%float) (PrimFloat.add hi1 2%float)).

(** The segment from waypoint [ii - 1] to waypoint [ii]. *)
Definition draw_segment (x : Vector) (ii : nat) : option GfxCmd :=
  x0 ← x !! ((ii - 1) * cdim)%nat;
  y0 ← x !! ((ii - 1) * cdim + 1)%nat;
  x1 ← x !! (ii * cdim)%nat;
  y1 ← x !! (ii * cdim + 1)%nat;
  Some (gfx_draw_line x0 y0 x1 y1).

Definition draw_waypoint (x : Vector) (ii : nat) : option GfxCmd :=
  px ← x !! (ii * cdim)%nat;
  py ← x !! (ii * cdim + 1)%nat;
  Some (gfx_draw_point px py).

(** The part of [cb_draw] under "trj": the polyline from start over the
    waypoints to the goal, then the points. *)
Definition draw_trajectory (s : State) : option (list GfxCmd) :=
  qs0 ← qs s !! 0%nat;
  qs1 ← qs s !! 1%nat;
  x0 ← xi s !! 0%nat;
  x1 ← xi s !! 1%nat;
  segments ← mapM (draw_segment (xi s)) (seq 1 (nq - 1));
  xl0 ← xi s !! ((nq - 1) * cdim)%nat;
  xl1 ← xi s !! ((nq - 1) * cdim + 1)%nat;
  qe0 ← qe s !! 0%nat;
  qe1 ← qe s !! 1%nat;
  points ← mapM (draw_waypoint (xi s)) (seq 0 nq);
  Some ([gfx_set_pen 1%float 0.2%float 0.2%float 0.2%float 1%float;
         gfx_draw_line qs0 qs1 x0 x1]
        ++ segments
        ++ [gfx_draw_line xl0 xl1 qe0 qe1;
            gfx_set_pen 5%float 0.8%float 0.2%float 0.2%float 1%float;
            gfx_draw_point qs0 qs1;
            gfx_set_pen 5%float 0.5%float 0.5%float 0.5%float 1%float]
        ++ points
        ++ [gfx_set_pen 5%float 0.2%float 0.8%float 0.2%float 1%float;
            gfx_draw_point qe0 qe1]).

(** The part of [cb_draw] under "handles": one translucent disk per
    obstacle. *)
Definition draw_handle (m : Matrix) (ii : nat) : option (list GfxCmd) :=
  x ← coeff 0 ii m;
  y ← coeff 1 ii m;
  r ← coeff 2 ii m;
  Some [gfx_set_pen 1%float 0%float 0%float 1%float 0.2%float;
        gfx_fill_arc x y r 0%float full_turn].

(** [cb_draw]: the bounds, the view, the robots, the trajectory and the
    handles.  It answers the calls it has made; a failed range assertion
    ends the program, and the calls made before it are not recorded. *)
Definition cb_draw : M (list GfxCmd) :=
  s <- get ;;
  bb <- asserted (view_bounds s) ;;
  view <- asserted (draw_view bb) ;;
  start <- asserted (Robot_draw (rstart s)) ;;
  waypoints <- asserted (mapM Robot_draw (robots s)) ;;
  goal <- asserted (Robot_draw (rend s)) ;;
  trj <- asserted (draw_trajectory s) ;;
  handles <- asserted (mapM (draw_handle (obs s)) (seq 0 (cols (obs s)))) ;;
  ret (view :: start ++ concat waypoints ++ goal ++ trj ++ concat handles).

(** ** The program *)

(** The variables at module scope before [main] runs: the vectors and the
    matrix are empty, [state] is zero, that is [PAUSE], [grabbed] is
    [(size_t)(-1)] and [grab_offset] has three coefficients that nobody has
    written. *)
Definition initial_state : State :=
  mkState [] [] [] empty_matrix PAUSE (to_size_t (-1))
    (replicate 3 uninitialized) new_Robot new_Robot [] (mkChomp None 0 0).

Definition set_qs (v : Vector) (s : State) : State :=
  mkState (xi s) v (qe s) (obs s) (state s) (grabbed s) (grab_offset s)
    (rstart s) (rend s) (robots s) (chomp s).
Definition set_qe (v : Vector) (s : State) : State :=
  mkState (xi s) (qs s) v (obs s) (state s) (grabbed s) (grab_offset s)
    (rstart s) (rend s) (robots s) (chomp s).

(** [main] up to its first call of the optimizer: start, goal and the two
    obstacles it seeds. *)
Definition main_setup : M unit :=
  modify (set_qs [(-5)%float; (-5)%float]) ;;;
  modify (set_qe [7%float; 7%float]) ;;;
  add_obs 3%float 0%float 2%float ;;;
  add_obs 0%float 3%float 2%float.

(** [main] up to the event loop. *)
Definition main_before_loop : M unit :=
  main_setup ;;;
  run_chomp cdim nq ;;;
  update_robots ;;;
  modify (set_state PAUSE).

(** What [gfx::main] delivers to the three callbacks [main] hands to it: an
    idle tick to [cb_idle], a redraw to [cb_draw] and a mouse event to
    [cb_mouse].  The three buttons are not registered ([main] has the calls of
    [gfx::add_button] commented out), so [cb_step], [cb_run] and [cb_jumble]
    are never called. *)
Inductive Event : Type :=
  | Idle
  | Draw
  | Mouse (px py : float) (flags : Z).

(** The callback of an event.  What [cb_draw] has drawn goes to the window
    and is not part of the state. *)
Definition handle (e : Event) : M unit :=
  match e with
  | Idle => cb_idle
  | Draw => cb_draw ;;; ret tt
  | Mouse px py flags => cb_mouse px py flags
  end.

(** The event loop on a list of events; a failure ends the program. *)
Fixpoint event_loop (es : list Event) : M unit :=
  match es with
  | [] => ret tt
  | e :: rest => handle e ;;; event_loop rest
  end.

(** ** What the theorems speak about *)

(** The matrices [obs] can hold: no column at all (as before the first
    [add_obs]), or [obs_dim] rows and one column [(x, y, R)] per obstacle. *)
Definition obstacle_matrix (m : Matrix) : Prop :=
  wf_matrix m /\ (mcolumns m = [] \/ mrows m = obs_dim).

(** Column [j] of a matrix. *)
Definition column (j : nat) (m : Matrix) : option (list float) :=
  mcolumns m !! j.

(** The state after [k] invocations of a computation, whatever each of them
    answered: section 7 of the specification lets the caller of a failed call
    "ignore the tick" and go on. *)
Fixpoint invocations (k : nat) (c : M unit) (s : State) : State :=
  match k with
  | O => s
  | S k' => invocations k' c (snd (c s))
  end.

(** A computation keeps the component [f] of the state. *)
Definition keeps {X A : Type} (f : State -> X) (c : M A) : Prop :=
  forall s, f (snd (c s)) = f s.

(** The branch of [cb_mouse] an event takes: the tests of its [if] chain, in
    order. *)
Definition adds_obstacle (flags : Z) : bool :=
  flag_set flags MOUSE_RELEASE && flag_set flags MOUSE_B3.
Definition is_press (flags : Z) : bool :=
  negb (adds_obstacle flags) && flag_set flags MOUSE_PRESS.
Definition is_drag (flags : Z) : bool :=
  negb (adds_obstacle flags) && negb (flag_set flags MOUSE_PRESS)
  && flag_set flags MOUSE_DRAG.
Definition is_plain_release (flags : Z) : bool :=
  negb (adds_obstacle flags) && negb (flag_set flags MOUSE_PRESS)
  && negb (flag_set flags MOUSE_DRAG) && flag_set flags MOUSE_RELEASE.

(** The offset from the pointer to the centre of the obstacle in column [c],
    and whether the pointer lies within the obstacle's radius, as the press
    branch computes them. *)
Definition pointer_offset (px py : float) (c : list float) : Vector :=
  match c with
  | x :: y :: _ => [PrimFloat.sub x px; PrimFloat.sub y py]
  | _ => []
  end.

Definition within_radius (px py : float) (c : list float) : bool :=
  match c with
  | [_; _; r] => PrimFloat.leb (norm (pointer_offset px py c)) r
  | _ => false
  end.

(** The lowest index of an obstacle the pointer lies within, with its
    column. *)
Definition lowest_hit (px py : float) (m : Matrix) : option (nat * list float) :=
  list_find (fun c => within_radius px py c = true) (mcolumns m).

(** What holds of the grab state whenever a callback starts: [obs] is an
    obstacle matrix, [grab_offset] has at least two coefficients, and
    [grabbed] is [(size_t)(-1)] or the index of a column. *)
Definition grab_invariant (s : State) : Prop :=
  obstacle_matrix (obs s)
  /\ (2 <= length (grab_offset s))%nat
  /\ (grabbed s = to_size_t (-1)
      \/ 0 <= grabbed s < Z.of_nat (cols (obs s))).

(** The radius of obstacle [j]: row 2 of its column. *)
Definition radius_of (j : nat) (m : Matrix) : option float := coeff 2 j m.

(** The grab state of [s] was written by a press event of the run [es] from
    [s0]: the event found the pointer within some obstacle's radius, [ii] is
    the lowest index of such an obstacle in the matrix of that moment, and
    [grabbed] and [grab_offset] of [s] are what that event stored. *)
Definition grabbed_by_press (s0 : State) (es : list Event) (s : State) : Prop :=
  exists es1 qx qy fl es2 s1 ii c,
    es = es1 ++ Mouse qx qy fl :: es2
    /\ is_press fl = true
    /\ event_loop es1 s0 = (Ok tt, s1)
    /\ lowest_hit qx qy (obs s1) = Some (ii, c)
    /\ grabbed s = to_size_t (Z.of_nat ii)
    /\ grab_offset s = pointer_offset qx qy c.

(** Modelled from the spec: the metric the next call of the optimizer works
    with, the cached one when it was built for the same [(cdim, nq)] and a
    fresh one otherwise (what [cached_metric] answers). *)
Definition metric_in_use (cd n : nat) (c : ChompInternal) : Matrix :=
  match metric_cache c with
  | Some (cd', n', a) =>
      if decide (cd' = cd /\ n' = n) then a else smoothness_metric cd n
  | None => smoothness_metric cd n
  end.

(** ** What the further theorems speak about *)

(** A robot that [Robot::draw] can draw: its position has two components. *)
Definition two_components (r : Robot) : Prop := length (position_ r) = 2%nat.

Definition robots_drawable (s : State) : Prop :=
  two_components (rstart s) /\ two_components (rend s)
  /\ Forall two_components (robots s).

(** A computation keeps the property [P] of the state, whatever it answers. *)
Definition preserves {A : Type} (P : State -> Prop) (c : M A) : Prop :=
  forall s, P s -> P (snd (c s)).

(** The bounds [bb] cover the coordinate [v] on axis [ii]: [v] is neither
    below the lower nor above the upper bound, in the comparisons of
    [cb_draw]. *)
Definition covers (ii : nat) (v : float) (bb : Vector * Vector) : Prop :=
  exists lo hi,
    fst bb !! ii = Some lo /\ snd bb !! ii = Some hi
    /\ PrimFloat.ltb v lo = false /\ PrimFloat.ltb hi v = false.

(** The number of events of a run that take the branch of [cb_mouse] that
    appends an obstacle. *)
Definition appends (e : Event) : bool :=
  match e with
  | Idle | Draw => false
  | Mouse _ _ flags => adds_obstacle flags
  end.

Definition count_appends (es : list Event) : nat :=
  length (filter (fun e => appends e = true) es).

(** The columns of the obstacles [os], in order. *)
Definition columns_of (os : list (float * float * float)) : list (list float) :=
  map (fun o => [fst (fst o); snd (fst o); snd o]) os.

(** [add_obs] for every obstacle of a list, in order, as [main] does for the
    two it seeds. *)
Fixpoint add_all_obs (os : list (float * float * float)) : M unit :=
  match os with
  | [] => ret tt
  | o :: rest => add_obs (fst (fst o)) (snd (fst o)) (snd o) ;;; add_all_obs rest
  end.

(** The body of the loop of [update_robots], for the waypoint [ii]. *)
Definition show_waypoint (ii : nat) : M unit :=
  s <- get ;;
  position <- asserted (vblock (ii * cdim) cdim (xi s)) ;;
  update_robot_at ii position.

(** An event that finds nothing to do in [s]: an idle tick, a redraw that
    returns, or a mouse event that neither appends an obstacle nor presses on
    one. *)
Definition quiet_event (s : State) (e : Event) : Prop :=
  match e with
  | Idle => True
  | Draw => exists calls, fst (cb_draw s) = Ok calls
  | Mouse px py flags =>
      adds_obstacle flags = false
      /\ (is_press flags = true -> lowest_hit px py (obs s) = None)
  end.

(** * Theorems *)

(** ** The monad *)

Lemma bind_Ok {A B} (c : M A) (k : A -> M B) s a s' :
  c s = (Ok a, s') -> bind c k s = k a s'.
Proof. intros E. unfold bind. now rewrite E. Qed.

Lemma bind_Fail {A B} (c : M A) (k : A -> M B) s e s' :
  c s = (Fail e, s') -> bind c k s = (Fail e, s').
Proof. intros E. unfold bind. now rewrite E. Qed.

Section Frame.
Context {X : Type} (f : State -> X).

Lemma keeps_ret {A} (a : A) : keeps f (ret a).
Proof. intros s. reflexivity. Qed.

Lemma keeps_fail {A} (e : Error) : keeps f (@fail A e).
Proof. intros s. reflexivity. Qed.

Lemma keeps_get : keeps f get.
Proof. intros s. reflexivity. Qed.

Lemma keeps_asserted {A} (o : option A) : keeps f (asserted o).
Proof. destruct o; intros s; reflexivity. Qed.

Lemma keeps_modify (g : State -> State) :
  (forall s, f (g s) = f s) -> keeps f (modify g).
Proof. intros H s. apply H. Qed.

Lemma keeps_bind {A B} (c : M A) (k : A -> M B) :
  keeps f c -> (forall a, keeps f (k a)) -> keeps f (bind c k).
Proof.
  intros Hc Hk s. unfold bind.
  destruct (c s) as [[a|e] s'] eqn:E.
  - rewrite Hk. specialize (Hc s). now rewrite E in Hc.
  - specialize (Hc s). now rewrite E in Hc.
Qed.

Lemma keeps_for_each (iis : list nat) (body : nat -> M unit) :
  (forall ii, keeps f (body ii)) -> keeps f (for_each iis body).
Proof.
  intros Hb. induction iis as [|ii rest IH]; simpl.
  - apply keeps_ret.
  - apply keeps_bind; [apply Hb | intros _; exact IH].
Qed.

Lemma keeps_for_break (iis : list nat) (body : nat -> M bool) :
  (forall ii, keeps f (body ii)) -> keeps f (for_break iis body).
Proof.
  intros Hb. induction iis as [|ii rest IH]; simpl.
  - apply keeps_ret.
  - apply keeps_bind; [apply Hb | intros [|]; [apply keeps_ret | exact IH]].
Qed.

Lemma keeps_invocations (c : M unit) (k : nat) (s : State) :
  keeps f c -> f (invocations k c s) = f s.
Proof.
  intros Hc. revert s. induction k as [|k IH]; intros s; simpl.
  - reflexivity.
  - rewrite IH. apply Hc.
Qed.

End Frame.

(** One step of a frame proof, by the shape of the computation. *)
Ltac frame_step :=
  lazymatch goal with
  | |- keeps _ (bind _ _) => apply keeps_bind; [ | intros ? ]
  | |- keeps _ (ret _) => apply keeps_ret
  | |- keeps _ (fail _) => apply keeps_fail
  | |- keeps _ get => apply keeps_get
  | |- keeps _ (asserted _) => apply keeps_asserted
  | |- keeps _ (modify _) => apply keeps_modify; intros ?; reflexivity
  | |- keeps _ (for_each _ _) => apply keeps_for_each; intros ?
  | |- keeps _ (for_break _ _) => apply keeps_for_break; intros ?
  | |- keeps _ (if ?b then _ else _) => destruct b
  | |- keeps _ (match ?x with _ => _ end) => destruct x
  end.
Ltac frame := repeat frame_step.

(** ** Matrices *)

Lemma resize_column_id (r : nat) (c : list float) :
  length c = r -> resize_column r c = c.
Proof.
  intros <-. unfold resize_column.
  rewrite firstn_all, Nat.sub_diag. simpl. apply app_nil_r.
Qed.

Lemma conservativeResize_one_more (m : Matrix) :
  obstacle_matrix m ->
  conservativeResize obs_dim (cols m + 1) m
  = mkMatrix obs_dim (mcolumns m ++ [replicate obs_dim uninitialized]).
Proof.
  intros [Hwf Hrows]. unfold conservativeResize, cols. f_equal.
  rewrite firstn_all2 by lia.
  replace (length (mcolumns m) + 1 - length (mcolumns m))%nat with 1%nat by lia.
  f_equal.
  destruct Hrows as [Hnil | Hrows]; [now rewrite Hnil |].
  unfold wf_matrix in Hwf. rewrite Hrows in Hwf.
  induction Hwf as [|c cs Hc _ IH]; simpl; [reflexivity |].
  now rewrite resize_column_id, IH.
Qed.

(** On an obstacle matrix [add_obs] returns, and what it leaves in [obs] is
    the old columns followed by [(px, py, radius)]: no coefficient that
    [conservativeResize] appended survives. *)
Lemma add_obs_columns (px py radius : float) (s : State) :
  obstacle_matrix (obs s) ->
  add_obs px py radius s
  = (Ok tt, set_obs (mkMatrix obs_dim (mcolumns (obs s) ++ [[px; py; radius]])) s).
Proof.
  intros Hm. unfold add_obs, bind, get.
  rewrite (conservativeResize_one_more _ Hm).
  unfold write_block_col, cols. simpl mrows. simpl mcolumns.
  rewrite length_app. simpl length.
  replace (length (mcolumns (obs s)) + 1 - 1)%nat
    with (length (mcolumns (obs s)) + 0)%nat by lia.
  destruct (decide (0 + 3 <= obs_dim)%nat) as [_|Hn]; [|unfold obs_dim in Hn; lia].
  rewrite lookup_app_r by lia.
  replace (length (mcolumns (obs s)) + 0 - length (mcolumns (obs s)))%nat
    with 0%nat by lia.
  simpl. unfold modify. do 2 f_equal. f_equal.
  rewrite insert_app_r. reflexivity.
Qed.

Lemma obstacle_matrix_empty : obstacle_matrix empty_matrix.
Proof. split; [constructor | now left]. Qed.

Lemma obstacle_matrix_snoc (m : Matrix) (c : list float) :
  obstacle_matrix m -> length c = obs_dim ->
  obstacle_matrix (mkMatrix obs_dim (mcolumns m ++ [c])).
Proof.
  intros [Hwf Hrows] Hc. split; [|now right].
  unfold wf_matrix in *. simpl. apply Forall_app. split.
  - destruct Hrows as [-> | <-]; [constructor | exact Hwf].
  - repeat constructor. exact Hc.
Qed.

(** ** Obstacles are appended *)

(** [add_obs] returns on every matrix whatever, also on one that is no
    obstacle matrix: the resize makes room for the block it writes. *)
Lemma add_obs_total (px py radius : float) (s : State) :
  exists m, add_obs px py radius s = (Ok tt, set_obs m s)
            /\ cols m = S (cols (obs s))
            /\ column (cols (obs s)) m = Some [px; py; radius].
Proof.
  unfold add_obs, bind, get, write_block_col.
  set (r := conservativeResize obs_dim (cols (obs s) + 1) (obs s)).
  assert (Hc : cols r = S (cols (obs s))).
  { unfold r, conservativeResize, cols. simpl.
    rewrite length_app, length_map, length_take, length_replicate. lia. }
  assert (Hr : mrows r = obs_dim) by reflexivity.
  rewrite Hr. destruct (decide _) as [_|Hn]; [|unfold obs_dim in Hn; simpl in Hn; lia].
  rewrite Hc. replace (S (cols (obs s)) - 1)%nat with (cols (obs s)) by lia.
  destruct (mcolumns r !! cols (obs s)) as [c|] eqn:E.
  - simpl. eexists. split; [reflexivity|]. split.
    + unfold cols at 1. simpl. rewrite length_insert. exact Hc.
    + unfold column. simpl. rewrite list_lookup_insert_eq.
      * assert (Hlen : length c = obs_dim).
        { unfold r, conservativeResize in E. simpl in E.
          apply list_elem_of_lookup_2 in E. apply elem_of_app in E.
          destruct E as [E|E].
          - apply list_elem_of_fmap in E. destruct E as (c0 & -> & _).
            unfold resize_column.
            rewrite length_app, length_take, length_replicate. lia.
          - apply elem_of_replicate in E. destruct E as [-> _].
            reflexivity. }
        destruct c as [|? [|? [|? [|]]]]; simpl in Hlen; try discriminate.
        reflexivity.
      * apply lookup_lt_Some in E. exact E.
  - apply lookup_ge_None in E. unfold cols in *. lia.
Qed.

(** C4. For every obstacle matrix (no column yet, or three rows and a column
    per obstacle), [add_obs px py radius] returns, the matrix has exactly one
    more column, the new last column is [(px, py, radius)], every column that
    was there is unchanged, and nothing else of the state changes; the result
    is again an obstacle matrix, and the empty matrix the program starts with
    is one. *)
Theorem add_obs_appends_one_column (px py radius : float) (s : State) :
  obstacle_matrix (obs s) ->
  exists s',
    add_obs px py radius s = (Ok tt, s')
    /\ cols (obs s') = S (cols (obs s))
    /\ column (cols (obs s') - 1) (obs s') = Some [px; py; radius]
    /\ (forall j, (j < cols (obs s))%nat ->
                  column j (obs s') = column j (obs s))
    /\ s' = set_obs (obs s') s
    /\ obstacle_matrix (obs s')
    /\ obstacle_matrix (obs initial_state)
    /\ cols (obs initial_state) = 0%nat.
Proof.
  intros Hm. eexists. split; [apply add_obs_columns; exact Hm|].
  simpl. unfold cols, column. simpl. rewrite length_app. simpl.
  split; [lia|]. split.
  { replace (length (mcolumns (obs s)) + 1 - 1)%nat
      with (length (mcolumns (obs s)) + 0)%nat by lia.
    rewrite lookup_app_r by lia.
    replace (length (mcolumns (obs s)) + 0 - length (mcolumns (obs s)))%nat
      with 0%nat by lia.
    reflexivity. }
  split; [intros j Hj; now rewrite lookup_app_l|].
  split; [reflexivity|].
  split; [apply obstacle_matrix_snoc; [exact Hm | reflexivity]|].
  split; [apply obstacle_matrix_empty | reflexivity].
Qed.

(** ** Robots *)

(** C8. [Robot::update] with a position that does not have exactly two
    components (two is [cdim]) stops with the [errx] of the dimension check
    and the robot keeps the position it had; with two components it returns
    and the robot holds the argument. *)
Theorem Robot_update_checks_dimension (position : Vector) (r : Robot) :
  cdim = 2%nat
  /\ (length position <> 2%nat ->
      Robot_update position r = (Fail (Errx_Robot_update (length position)), r))
  /\ (length position = 2%nat ->
      Robot_update position r = (Ok tt, mkRobot position)
      /\ position_ (snd (Robot_update position r)) = position).
Proof.
  unfold Robot_update. split; [reflexivity|].
  split; intros H; destruct (decide _) as [Hd|Hd]; try contradiction.
  - reflexivity.
  - split; reflexivity.
Qed.

(** ** Frames of the callbacks *)

Lemma keeps_update_in {X} (f : State -> X) rd wr (position : Vector) :
  (forall r s, f (wr r s) = f s) -> keeps f (update_in rd wr position).
Proof.
  intros H s. unfold update_in.
  destruct (Robot_update position (rd s)) as [o r]. simpl. apply H.
Qed.

Lemma keeps_update_robot_at {X} (f : State -> X) (ii : nat) (position : Vector) :
  (forall rs s, f (set_robots rs s) = f s) ->
  keeps f (update_robot_at ii position).
Proof.
  intros H s. unfold update_robot_at.
  destruct (robots s !! ii) as [r0|]; [|reflexivity].
  destruct (Robot_update position r0) as [o r]. simpl. apply H.
Qed.

(** [update_robots] writes the robots and nothing else. *)
Lemma keeps_update_robots {X} (f : State -> X) :
  (forall r s, f (set_rstart r s) = f s) ->
  (forall r s, f (set_rend r s) = f s) ->
  (forall rs s, f (set_robots rs s) = f s) ->
  keeps f update_robots.
Proof.
  intros H1 H2 H3. unfold update_robots.
  apply keeps_bind; [apply keeps_get | intros s0].
  apply keeps_bind; [now apply keeps_update_in | intros _].
  apply keeps_bind; [now apply keeps_update_in | intros _].
  apply keeps_bind.
  { destruct (decide _); [apply keeps_modify; intros ?; apply H3 | apply keeps_ret]. }
  intros _. apply keeps_for_each. intros ii.
  apply keeps_bind; [apply keeps_get | intros s1].
  apply keeps_bind; [apply keeps_asserted | intros position].
  now apply keeps_update_robot_at.
Qed.

(** The optimizer writes the trajectory and its own internals, nothing else. *)
Lemma keeps_run_chomp {X} (f : State -> X) (cd n : nat) :
  (forall c s, f (set_chomp c s) = f s) ->
  (forall v s, f (set_xi v s) = f s) ->
  keeps f (run_chomp cd n).
Proof.
  intros Hc Hx. unfold run_chomp, cached_metric.
  repeat first
    [ frame_step
    | apply keeps_modify; intros ?; first [apply Hc | apply Hx] ].
Qed.

Lemma keeps_cb_idle {X} (f : State -> X) :
  (forall c s, f (set_chomp c s) = f s) ->
  (forall v s, f (set_xi v s) = f s) ->
  (forall r s, f (set_rstart r s) = f s) ->
  (forall r s, f (set_rend r s) = f s) ->
  (forall rs s, f (set_robots rs s) = f s) ->
  keeps f cb_idle.
Proof.
  intros Hc Hx H1 H2 H3. unfold cb_idle.
  apply keeps_bind; [apply keeps_get | intros s0].
  destruct (state s0); [apply keeps_ret | |];
    (apply keeps_bind; [now apply keeps_run_chomp
                       | intros _; now apply keeps_update_robots]).
Qed.

(** [cb_draw] only reads: whether it returns or fails, the state is the one
    it found. *)
Lemma keeps_cb_draw {X} (f : State -> X) : keeps f cb_draw.
Proof. unfold cb_draw. frame. Qed.

Lemma handle_Draw (s : State) : snd (handle Draw s) = s.
Proof.
  assert (K : keeps (fun t => t) (handle Draw)).
  { simpl. apply keeps_bind; [apply keeps_cb_draw | intros ?; apply keeps_ret]. }
  apply K.
Qed.

Lemma handle_Draw_returns (s s' : State) :
  handle Draw s = (Ok tt, s') -> s' = s.
Proof. intros E. pose proof (handle_Draw s) as K. now rewrite E in K. Qed.

(** Every invocation of the optimizer is counted once, whatever it answers. *)
Lemma run_chomp_counts_one (cd n : nat) (s : State) :
  calls (chomp (snd (run_chomp cd n s))) = S (calls (chomp s)).
Proof.
  unfold run_chomp.
  match goal with
  | |- context [bind (modify ?h) ?k] =>
      assert (K : keeps (fun s => calls (chomp s)) (k tt))
  end.
  { cbv beta. unfold cached_metric. frame. }
  unfold bind at 1. unfold modify at 1. rewrite K. reflexivity.
Qed.

(** ** Start and goal are never written *)

(** C1. After any number [k] of invocations of [run_chomp], each started in
    the state the one before left (whether it returned or failed), the start
    [qs] and the goal [qe] are the vectors they were before the first one; of
    the whole state only the trajectory [xi] and the optimizer's own
    internals differ.  The same holds for [k] idle ticks of the driver, which
    is where the driver invokes the optimizer. *)
Theorem run_chomp_never_writes_endpoints (cd n k : nat) (s : State) :
  let s' := invocations k (run_chomp cd n) s in
  qs s' = qs s /\ qe s' = qe s
  /\ s' = set_chomp (chomp s') (set_xi (xi s') s)
  /\ qs (invocations k cb_idle s) = qs s
  /\ qe (invocations k cb_idle s) = qe s.
Proof.
  intros s'.
  assert (K : (fun s => (qs s, qe s, obs s, state s, grabbed s, grab_offset s,
                         rstart s, rend s, robots s)) s'
              = (qs s, qe s, obs s, state s, grabbed s, grab_offset s,
                 rstart s, rend s, robots s)).
  { unfold s'.
    apply (keeps_invocations
             (fun s => (qs s, qe s, obs s, state s, grabbed s, grab_offset s,
                        rstart s, rend s, robots s))).
    apply keeps_run_chomp; reflexivity. }
  cbv beta in K. split; [congruence|]. split; [congruence|]. split.
  - destruct s', s. simpl in *. unfold set_chomp, set_xi. simpl. congruence.
  - split; apply keeps_invocations; apply keeps_cb_idle; reflexivity.
Qed.

(** ** The failures of the optimizer *)

(** C2. [run_chomp] for [n] waypoints of dimension [cd] fails with
    [DimensionError] whenever the size of the start, of the goal or of the
    trajectory does not fit [cd] and [n]; an empty trajectory with [n > 0]
    (and [cd > 0]) is such a case, and so is the call in [main], which passes
    a trajectory that was never sized.  It fails with [SingularMetricError]
    only when [n = 0] (and does so when the sizes fit).  A failing call has
    computed no gradient, has not touched the metric cache and has left the
    trajectory as it was. *)
Theorem run_chomp_failures (cd n : nat) (s : State) :
  let r := run_chomp cd n s in
  (length (qs s) <> cd \/ length (qe s) <> cd \/ length (xi s) <> (n * cd)%nat ->
   fst r = Fail DimensionError)
  /\ (xi s = [] -> (0 < n)%nat -> (0 < cd)%nat -> fst r = Fail DimensionError)
  /\ fst (run_chomp cdim nq (snd (main_setup initial_state))) = Fail DimensionError
  /\ (fst r = Fail SingularMetricError -> n = 0%nat)
  /\ (n = 0%nat -> length (qs s) = cd -> length (qe s) = cd -> xi s = [] ->
      fst r = Fail SingularMetricError)
  /\ (forall e, fst r = Fail e ->
        grad_evals (chomp (snd r)) = grad_evals (chomp s)
        /\ metric_cache (chomp (snd r)) = metric_cache (chomp s)
        /\ xi (snd r) = xi s).
Proof.
  intros r.
  assert (Hdim : length (qs s) <> cd \/ length (qe s) <> cd
                 \/ length (xi s) <> (n * cd)%nat -> fst r = Fail DimensionError).
  { intros H. unfold r, run_chomp, bind, modify, get. simpl.
    destruct (decide _) as [_|Hn]; [reflexivity | contradiction]. }
  split; [exact Hdim|].
  split.
  { intros Hx Hn Hc. apply Hdim. right. right. rewrite Hx. simpl. nia. }
  split; [reflexivity|].
  split.
  { unfold r, run_chomp, bind, modify, get. simpl.
    destruct (decide _) as [_|_]; [discriminate|].
    destruct (decide (n = 0%nat)) as [Hn|_]; [intros _; exact Hn|].
    unfold cached_metric, bind, get, modify, ret. simpl.
    destruct (metric_cache (chomp s)) as [[[cd' n'] a]|]; simpl;
      [destruct (decide _)|]; discriminate. }
  split.
  { intros Hn Hs He Hx. unfold r, run_chomp, bind, modify, get. simpl.
    destruct (decide _) as [[H|[H|H]]|_]; try contradiction.
    - exfalso. apply H. rewrite Hx, Hn. reflexivity.
    - destruct (decide (n = 0%nat)); [reflexivity | contradiction]. }
  intros e. unfold r, run_chomp, bind, modify, get. simpl.
  destruct (decide _) as [_|_]; [intros _; simpl; auto|].
  destruct (decide (n = 0%nat)) as [_|_]; [intros _; simpl; auto|].
  unfold cached_metric, bind, get, modify, ret. simpl.
  destruct (metric_cache (chomp s)) as [[[cd' n'] a]|]; simpl;
    [destruct (decide _)|]; discriminate.
Qed.

(** ** The idle callback *)

(** C7. One idle tick invokes the optimizer exactly once when the mode is not
    [PAUSE] (the tick is then one call of [run_chomp] followed by
    [update_robots], and the count of invocations goes up by one) and not at
    all when it is; in [PAUSE] the tick returns at once and the whole state
    (trajectory, robots, obstacles and the rest) is what it was. *)
Theorem cb_idle_invokes_unless_paused (s : State) :
  let r := cb_idle s in
  (state s = PAUSE -> r = (Ok tt, s))
  /\ (state s <> PAUSE -> r = (run_chomp cdim nq ;;; update_robots) s)
  /\ (state s <> PAUSE -> calls (chomp (snd r)) = S (calls (chomp s)))
  /\ (calls (chomp (snd r)) = S (calls (chomp s)) <-> state s <> PAUSE)
  /\ (calls (chomp (snd r)) = calls (chomp s) <-> state s = PAUSE).
Proof.
  intros r.
  assert (Hrun : state s <> PAUSE ->
                 calls (chomp (snd r)) = S (calls (chomp s))).
  { intros Hs. unfold r, cb_idle. unfold bind at 1. unfold get at 1.
    assert (E : forall s1,
      calls (chomp (snd (bind (run_chomp cdim nq) (fun _ => update_robots) s1)))
      = S (calls (chomp s1))).
    { intros s1. unfold bind.
      pose proof (run_chomp_counts_one cdim nq s1) as Hc.
      destruct (run_chomp cdim nq s1) as [[[]|e] s2]; simpl in Hc |- *.
      - rewrite (keeps_update_robots (fun s => calls (chomp s)));
          [exact Hc | reflexivity..].
      - exact Hc. }
    destruct (state s); [contradiction | apply E | apply E]. }
  assert (Hpause : state s = PAUSE -> r = (Ok tt, s)).
  { intros Hs. unfold r, cb_idle, bind, get. now rewrite Hs. }
  split; [exact Hpause|].
  split.
  { intros Hs. unfold r, cb_idle. unfold bind at 1. unfold get at 1.
    destruct (state s); [contradiction | reflexivity | reflexivity]. }
  split; [exact Hrun|]. split; split.
  - intros Hc Hs. rewrite (Hpause Hs) in Hc. simpl in Hc. lia.
  - exact Hrun.
  - intros Hc. destruct (state s) eqn:Hs; [reflexivity | |];
      rewrite Hrun in Hc by discriminate; lia.
  - intros Hs. now rewrite (Hpause Hs).
Qed.

(** ** The mouse callback, branch by branch *)

Lemma cb_mouse_add (px py : float) (flags : Z) (s : State) :
  adds_obstacle flags = true ->
  cb_mouse px py flags s = add_obs px py 2%float s.
Proof.
  unfold adds_obstacle, cb_mouse. now intros ->.
Qed.

Lemma cb_mouse_press (px py : float) (flags : Z) (s : State) :
  is_press flags = true ->
  cb_mouse px py flags s
  = for_break (seq 0 (cols (obs s))) (try_grab px py) s.
Proof.
  unfold is_press, adds_obstacle, cb_mouse.
  intros [Ha Hp]%andb_prop. apply negb_true_iff in Ha.
  now rewrite Ha, Hp.
Qed.

Lemma cb_mouse_drag (px py : float) (flags : Z) (s : State) :
  is_drag flags = true ->
  cb_mouse px py flags s = drag px py s.
Proof.
  unfold is_drag, adds_obstacle, cb_mouse.
  intros [[Ha Hp]%andb_prop Hd]%andb_prop.
  apply negb_true_iff in Ha, Hp. now rewrite Ha, Hp, Hd.
Qed.

Lemma cb_mouse_release (px py : float) (flags : Z) (s : State) :
  is_plain_release flags = true ->
  cb_mouse px py flags s
  = (Ok tt, set_state PAUSE (set_grabbed (to_size_t (-1)) s)).
Proof.
  unfold is_plain_release, adds_obstacle, cb_mouse.
  intros [[[Ha Hp]%andb_prop Hd]%andb_prop Hr]%andb_prop.
  apply negb_true_iff in Ha, Hp, Hd. now rewrite Ha, Hp, Hd, Hr.
Qed.

Lemma cb_mouse_other (px py : float) (flags : Z) (s : State) :
  adds_obstacle flags = false ->
  is_press flags = false ->
  is_drag flags = false ->
  is_plain_release flags = false ->
  cb_mouse px py flags s = (Ok tt, s).
Proof.
  unfold is_plain_release, is_drag, is_press, adds_obstacle, cb_mouse.
  intros ->. simpl. intros ->. simpl. intros ->. simpl. now intros ->.
Qed.

(** The press branch never writes [obs]. *)
Lemma keeps_try_grab {X} (f : State -> X) (px py : float) (ii : nat) :
  (forall v s, f (set_grab_offset v s) = f s) ->
  (forall g s, f (set_grabbed g s) = f s) ->
  (forall md s, f (set_state md s) = f s) ->
  keeps f (try_grab px py ii).
Proof.
  intros H1 H2 H3. unfold try_grab.
  repeat first
    [ frame_step
    | apply keeps_modify; intros ?; first [apply H1 | apply H2 | apply H3] ].
Qed.

(** One iteration of the press loop on a column of an obstacle matrix. *)
Lemma try_grab_column (px py : float) (ii : nat) (c : list float) (s : State) :
  mrows (obs s) = obs_dim -> column ii (obs s) = Some c -> length c = obs_dim ->
  try_grab px py ii s
  = if within_radius px py c
    then (Ok true,
          set_state RUN
            (set_grabbed (to_size_t (Z.of_nat ii))
               (set_grab_offset (pointer_offset px py c) s)))
    else (Ok false, s).
Proof.
  intros Hr Hc Hlen. unfold column in Hc.
  destruct c as [|x [|y [|r [|]]]]; try discriminate. clear Hlen.
  unfold try_grab, bind, get, block_col, coeff. rewrite Hr, Hc. simpl.
  destruct (PrimFloat.leb _ r); reflexivity.
Qed.

(** The press loop from column [length pre] on. *)
Lemma press_loop_from (px py : float) (s : State) (pre rest : list (list float)) :
  mcolumns (obs s) = pre ++ rest ->
  mrows (obs s) = obs_dim ->
  Forall (fun c => length c = obs_dim) rest ->
  for_break (seq (length pre) (length rest)) (try_grab px py) s
  = match list_find (fun c => within_radius px py c = true) rest with
    | Some (i, c) =>
        (Ok tt,
         set_state RUN
           (set_grabbed (to_size_t (Z.of_nat (length pre + i)))
              (set_grab_offset (pointer_offset px py c) s)))
    | None => (Ok tt, s)
    end.
Proof.
  intros Hcols Hr Hall. revert pre Hcols.
  induction Hall as [|c rest Hc Hall IH]; intros pre Hcols; [reflexivity|].
  simpl. unfold bind at 1.
  rewrite (try_grab_column px py (length pre) c s Hr); [|
    unfold column; rewrite Hcols, lookup_app_r, Nat.sub_diag by lia; reflexivity
    | exact Hc].
  destruct (within_radius px py c) eqn:Hw.
  - destruct (decide (true = true)) as [_|Hn]; [|contradiction].
    simpl. rewrite Nat.add_0_r. reflexivity.
  - destruct (decide (false = true)) as [Hn|_]; [discriminate|].
    specialize (IH (pre ++ [c])). rewrite length_app in IH. simpl in IH.
    rewrite Nat.add_1_r in IH. rewrite IH by (rewrite <- app_assoc; exact Hcols).
    destruct (list_find _ rest) as [[i c']|]; simpl; [|reflexivity].
    replace (length pre + S i)%nat with (S (length pre + i)) by lia.
    reflexivity.
Qed.

(** The press branch on an obstacle matrix: it grabs the lowest obstacle the
    pointer lies within, or changes nothing. *)
Lemma press_loop (px py : float) (s : State) :
  obstacle_matrix (obs s) ->
  for_break (seq 0 (cols (obs s))) (try_grab px py) s
  = match lowest_hit px py (obs s) with
    | Some (ii, c) =>
        (Ok tt,
         set_state RUN
           (set_grabbed (to_size_t (Z.of_nat ii))
              (set_grab_offset (pointer_offset px py c) s)))
    | None => (Ok tt, s)
    end.
Proof.
  intros [Hwf [Hnil | Hr]].
  - unfold cols, lowest_hit. rewrite Hnil. reflexivity.
  - unfold wf_matrix in Hwf. rewrite Hr in Hwf.
    apply (press_loop_from px py s [] (mcolumns (obs s))); auto.
Qed.

(** The drag branch while nothing is grabbed. *)
Lemma drag_sentinel (px py : float) (s : State) :
  grabbed s = to_size_t (-1) -> drag px py s = (Ok tt, s).
Proof.
  intros Hg. unfold drag, bind, get. rewrite Hg, Z.eqb_refl. reflexivity.
Qed.

(** The drag branch on a grabbed column: rows 0 and 1 of that column are
    written, in this order. *)
Lemma drag_grabbed (px py : float) (s : State) (c : list float)
    (go0 go1 : float) (rest : Vector) :
  grabbed s <> to_size_t (-1) ->
  column (Z.to_nat (grabbed s)) (obs s) = Some c ->
  (2 <= mrows (obs s))%nat ->
  grab_offset s = go0 :: go1 :: rest ->
  drag px py s
  = (Ok tt,
     set_obs (mkMatrix (mrows (obs s))
                (<[Z.to_nat (grabbed s) :=
                     <[1%nat := PrimFloat.add py go1]>
                       (<[0%nat := PrimFloat.add px go0]> c)]>
                   (mcolumns (obs s)))) s).
Proof.
  intros Hg Hc Hr Hgo. unfold column in Hc.
  assert (Hlt : (Z.to_nat (grabbed s) < length (mcolumns (obs s)))%nat)
    by (eapply lookup_lt_Some; exact Hc).
  unfold drag, bind, get.
  replace (to_size_t (-1) =? grabbed s) with false
    by (symmetry; apply Z.eqb_neq; congruence).
  simpl negb. cbv iota. rewrite Hgo. simpl.
  unfold set_coeff. rewrite Hc.
  destruct (decide (0 < mrows (obs s))%nat) as [_|Hn]; [|lia].
  simpl. rewrite list_lookup_insert_eq by exact Hlt.
  destruct (decide (1 < mrows (obs s))%nat) as [_|Hn]; [|lia].
  simpl. rewrite list_insert_insert_eq. reflexivity.
Qed.

(** Writing rows 0 and 1 of a column of three keeps row 2. *)
Lemma moved_column (x y r x' y' : float) :
  <[1%nat := y']> (<[0%nat := x']> [x; y; r]) = [x'; y'; r].
Proof. reflexivity. Qed.

Lemma obstacle_matrix_column (m : Matrix) (j : nat) (c : list float) :
  obstacle_matrix m -> column j m = Some c ->
  mrows m = obs_dim /\ exists x y r, c = [x; y; r].
Proof.
  intros [Hwf Hr] Hc. unfold column in Hc.
  destruct Hr as [Hnil | Hr]; [rewrite Hnil in Hc; discriminate|].
  split; [exact Hr|].
  unfold wf_matrix in Hwf. rewrite Forall_lookup in Hwf.
  specialize (Hwf j c Hc). rewrite Hr in Hwf.
  destruct c as [|x [|y [|r [|]]]]; try discriminate. eauto.
Qed.

Lemma obstacle_matrix_insert (m : Matrix) (j : nat) (c : list float) :
  obstacle_matrix m -> length c = obs_dim ->
  obstacle_matrix (mkMatrix (mrows m) (<[j := c]> (mcolumns m))).
Proof.
  intros [Hwf Hr] Hc. split.
  - unfold wf_matrix in *. simpl.
    destruct Hr as [Hnil | Hr]; [rewrite Hnil; constructor|].
    apply Forall_insert; [exact Hwf | congruence].
  - simpl. destruct Hr as [Hnil | Hr]; [left; now rewrite Hnil | now right].
Qed.

(** The radius of a column. *)
Lemma radius_of_column (m : Matrix) (j : nat) (x y r : float) :
  mrows m = obs_dim -> column j m = Some [x; y; r] -> radius_of j m = Some r.
Proof.
  intros Hr Hc. unfold radius_of, coeff, column in *. rewrite Hr, Hc.
  reflexivity.
Qed.

(** The drag branch in full: from a state that satisfies the grab invariant
    it returns, writes [obs] only, keeps the number of columns, every radius
    and every column but the grabbed one, and moves the centre of that one to
    the pointer plus the grab offset. *)
Lemma drag_frame (px py : float) (s : State) :
  grab_invariant s ->
  exists s',
    drag px py s = (Ok tt, s')
    /\ s' = set_obs (obs s') s
    /\ cols (obs s') = cols (obs s)
    /\ mrows (obs s') = mrows (obs s)
    /\ obstacle_matrix (obs s')
    /\ (forall j, radius_of j (obs s') = radius_of j (obs s))
    /\ (forall j, Z.of_nat j <> grabbed s -> column j (obs s') = column j (obs s))
    /\ (grabbed s = to_size_t (-1) -> s' = s)
    /\ (grabbed s <> to_size_t (-1) ->
        exists x y r go0 go1 rest,
          column (Z.to_nat (grabbed s)) (obs s) = Some [x; y; r]
          /\ grab_offset s = go0 :: go1 :: rest
          /\ column (Z.to_nat (grabbed s)) (obs s')
             = Some [PrimFloat.add px go0; PrimFloat.add py go1; r]).
Proof.
  intros (Hm & Hgo & Hg).
  destruct (decide (grabbed s = to_size_t (-1))) as [Hs | Hs].
  { exists s. rewrite (drag_sentinel px py s Hs).
    split; [reflexivity|]. split; [now destruct s|].
    split; [reflexivity|]. split; [reflexivity|]. split; [exact Hm|].
    split; [reflexivity|]. split; [reflexivity|]. split; [reflexivity|].
    intros Hn. contradiction. }
  destruct Hg as [Hg | Hg]; [contradiction|].
  assert (Hlt : (Z.to_nat (grabbed s) < cols (obs s))%nat) by lia.
  destruct (lookup_lt_is_Some_2 (mcolumns (obs s)) _ Hlt) as [c Hc].
  destruct (obstacle_matrix_column _ _ _ Hm Hc) as (Hr & x & y & r & ->).
  destruct (grab_offset s) as [|go0 [|go1 rest]] eqn:Ego; simpl in Hgo; try lia.
  eexists. split.
  { apply (drag_grabbed px py s [x; y; r] go0 go1 rest Hs Hc);
      [rewrite Hr; unfold obs_dim; lia | exact Ego]. }
  rewrite moved_column. simpl.
  split; [reflexivity|].
  split; [unfold cols; simpl; apply length_insert|].
  split; [reflexivity|].
  split; [apply obstacle_matrix_insert; [exact Hm | reflexivity]|].
  split.
  { intros j. unfold radius_of, coeff. simpl.
    destruct (decide (2 < mrows (obs s))%nat); [|reflexivity].
    destruct (decide (j = Z.to_nat (grabbed s))) as [-> | Hj].
    - rewrite list_lookup_insert_eq by exact Hlt. now rewrite Hc.
    - now rewrite list_lookup_insert_ne by congruence. }
  split.
  { intros j Hj. unfold column. simpl.
    apply list_lookup_insert_ne. lia. }
  split; [intros Hn; contradiction|].
  intros _. exists x, y, r, go0, go1, rest.
  split; [exact Hc|]. split; [reflexivity|].
  unfold column. simpl. now rewrite list_lookup_insert_eq by exact Hlt.
Qed.

(** ** The grab invariant *)

Lemma to_size_t_index (ii : nat) :
  0 <= to_size_t (Z.of_nat ii) <= Z.of_nat ii.
Proof.
  unfold to_size_t. split.
  - apply Z.mod_pos_bound. lia.
  - apply Z.mod_le; lia.
Qed.

Lemma lowest_hit_Some (px py : float) (m : Matrix) (ii : nat) (c : list float) :
  lowest_hit px py m = Some (ii, c) ->
  column ii m = Some c
  /\ within_radius px py c = true
  /\ (forall j c', column j m = Some c' -> (j < ii)%nat ->
                   within_radius px py c' = false)
  /\ (ii < cols m)%nat
  /\ length (pointer_offset px py c) = 2%nat.
Proof.
  unfold lowest_hit, column, cols. intros H.
  apply list_find_Some in H. destruct H as (Hc & Hw & Hlow).
  split; [exact Hc|]. split; [exact Hw|]. split.
  - intros j c' Hj Hlt. specialize (Hlow j c' Hj Hlt).
    now destruct (within_radius px py c').
  - split; [eapply lookup_lt_Some; exact Hc|].
    destruct c as [|x [|y [|r [|]]]]; try discriminate. reflexivity.
Qed.

(** What one mouse event does to a state that satisfies the grab invariant:
    the event takes exactly one branch, the branch returns, and the state it
    leaves is the one named here. *)
Lemma cb_mouse_cases (px py : float) (flags : Z) (s : State) :
  grab_invariant s ->
  (adds_obstacle flags = true
   /\ cb_mouse px py flags s
      = (Ok tt, set_obs (mkMatrix obs_dim
                           (mcolumns (obs s) ++ [[px; py; 2%float]])) s))
  \/ (is_press flags = true
      /\ exists ii c,
           lowest_hit px py (obs s) = Some (ii, c)
           /\ cb_mouse px py flags s
              = (Ok tt, set_state RUN
                          (set_grabbed (to_size_t (Z.of_nat ii))
                             (set_grab_offset (pointer_offset px py c) s))))
  \/ (is_press flags = true
      /\ lowest_hit px py (obs s) = None
      /\ cb_mouse px py flags s = (Ok tt, s))
  \/ (is_drag flags = true
      /\ cb_mouse px py flags s = drag px py s)
  \/ (is_plain_release flags = true
      /\ cb_mouse px py flags s
         = (Ok tt, set_state PAUSE (set_grabbed (to_size_t (-1)) s)))
  \/ (adds_obstacle flags = false
      /\ is_press flags = false
      /\ is_drag flags = false
      /\ is_plain_release flags = false
      /\ cb_mouse px py flags s = (Ok tt, s)).
Proof.
  intros (Hm & Hgo & Hg).
  destruct (adds_obstacle flags) eqn:Ha.
  { left. split; [reflexivity|].
    rewrite (cb_mouse_add px py flags s Ha). now apply add_obs_columns. }
  destruct (is_press flags) eqn:Hp.
  { rewrite (cb_mouse_press px py flags s Hp), (press_loop px py s Hm).
    destruct (lowest_hit px py (obs s)) as [[ii c]|] eqn:Hl.
    - right. left. split; [reflexivity|]. exists ii, c. split; reflexivity.
    - right. right. left. repeat split; reflexivity. }
  destruct (is_drag flags) eqn:Hd.
  { do 3 right. left. split; [reflexivity|]. now apply cb_mouse_drag. }
  destruct (is_plain_release flags) eqn:Hr.
  { do 4 right. left. split; [reflexivity|]. now apply cb_mouse_release. }
  do 5 right. repeat split; try reflexivity. now apply cb_mouse_other.
Qed.

(** Appending a column keeps the radius of every obstacle that was there. *)
Lemma radius_of_snoc (m : Matrix) (c : list float) (j : nat) :
  obstacle_matrix m -> (j < cols m)%nat ->
  radius_of j (mkMatrix obs_dim (mcolumns m ++ [c])) = radius_of j m.
Proof.
  intros [_ Hr] Hj. unfold cols in Hj.
  destruct Hr as [Hnil | Hr]; [rewrite Hnil in Hj; simpl in Hj; lia|].
  unfold radius_of, coeff. simpl. rewrite Hr. now rewrite lookup_app_l.
Qed.

(** A mouse event on a state that satisfies the grab invariant returns, and
    the invariant holds again; no obstacle disappears and no radius
    changes; only [obs], [grabbed], [grab_offset] and [state] are written. *)
Lemma cb_mouse_invariant (px py : float) (flags : Z) (s : State) :
  grab_invariant s ->
  exists s',
    cb_mouse px py flags s = (Ok tt, s')
    /\ grab_invariant s'
    /\ (cols (obs s) <= cols (obs s'))%nat
    /\ (forall j, (j < cols (obs s))%nat ->
                  radius_of j (obs s') = radius_of j (obs s))
    /\ s' = set_state (state s')
              (set_grabbed (grabbed s')
                 (set_grab_offset (grab_offset s') (set_obs (obs s') s))).
Proof.
  intros Hinv. pose proof Hinv as (Hm & Hgo & Hg).
  destruct (cb_mouse_cases px py flags s Hinv)
    as [[_ E] | [(_ & ii & c & Hl & E) | [(_ & _ & E) | [[_ E] | [[_ E]
       | (_ & _ & _ & _ & E)]]]]]; rewrite E.
  - eexists. split; [reflexivity|]. simpl. split; [|split; [|split]].
    + split; [apply obstacle_matrix_snoc; [exact Hm | reflexivity]|].
      split; [exact Hgo|]. simpl. unfold cols in *. simpl.
      rewrite length_app. simpl. lia.
    + unfold cols. simpl. rewrite length_app. lia.
    + intros j Hj. now apply radius_of_snoc.
    + now destruct s.
  - destruct (lowest_hit_Some _ _ _ _ _ Hl) as (_ & _ & _ & Hlt & Hlen).
    eexists. split; [reflexivity|]. simpl. split; [|split; [|split]].
    + split; [exact Hm|]. simpl. split; [lia|]. right.
      pose proof (to_size_t_index ii). lia.
    + lia.
    + reflexivity.
    + now destruct s.
  - exists s. split; [reflexivity|]. split; [exact Hinv|].
    split; [lia|]. split; [reflexivity | now destruct s].
  - destruct (drag_frame px py s Hinv)
      as (s' & E' & Hs' & Hcols & _ & Hm' & Hrad & _).
    assert (Eg : grabbed s' = grabbed s) by (rewrite Hs'; reflexivity).
    assert (Eo : grab_offset s' = grab_offset s) by (rewrite Hs'; reflexivity).
    assert (Est : state s' = state s) by (rewrite Hs'; reflexivity).
    exists s'. split; [exact E'|]. split; [|split; [|split]].
    + split; [exact Hm'|]. rewrite Eg, Eo, Hcols. split; [exact Hgo | exact Hg].
    + lia.
    + intros j _. apply Hrad.
    + rewrite Eg, Eo, Est. rewrite Hs' at 1. now destruct s.
  - eexists. split; [reflexivity|]. simpl. split; [|split; [|split]].
    + split; [exact Hm|]. simpl. split; [exact Hgo | now left].
    + lia.
    + reflexivity.
    + now destruct s.
  - exists s. split; [reflexivity|]. split; [exact Hinv|].
    split; [lia|]. split; [reflexivity | now destruct s].
Qed.

(** An idle tick writes neither the obstacles nor the grab state. *)
Lemma cb_idle_grab_frame (s : State) :
  obs (snd (cb_idle s)) = obs s
  /\ grabbed (snd (cb_idle s)) = grabbed s
  /\ grab_offset (snd (cb_idle s)) = grab_offset s.
Proof.
  pose proof (keeps_cb_idle (fun s => (obs s, grabbed s, grab_offset s))) as K.
  specialize (K ltac:(reflexivity) ltac:(reflexivity) ltac:(reflexivity)
                ltac:(reflexivity) ltac:(reflexivity) s).
  cbv beta in K. repeat split; congruence.
Qed.

(** Every event keeps the grab invariant, whether its callback returns or
    fails, and keeps every obstacle with its radius. *)
Lemma handle_invariant (e : Event) (s : State) :
  grab_invariant s ->
  grab_invariant (snd (handle e s))
  /\ (cols (obs s) <= cols (obs (snd (handle e s))))%nat
  /\ (forall j, (j < cols (obs s))%nat ->
                radius_of j (obs (snd (handle e s))) = radius_of j (obs s)).
Proof.
  intros Hinv. destruct e as [| |px py flags]; simpl.
  - destruct (cb_idle_grab_frame s) as (Ho & Hg & Hgo).
    unfold grab_invariant. rewrite Ho, Hg, Hgo.
    split; [exact Hinv|]. split; [lia | reflexivity].
  - change (bind cb_draw (fun _ => ret tt) s) with (handle Draw s).
    rewrite handle_Draw. split; [exact Hinv|]. split; [lia | reflexivity].
  - destruct (cb_mouse_invariant px py flags s Hinv)
      as (s' & E & Hinv' & Hc & Hr & _).
    rewrite E. simpl. auto.
Qed.

Lemma event_loop_invariant (es : list Event) (s : State) :
  grab_invariant s ->
  grab_invariant (snd (event_loop es s))
  /\ (cols (obs s) <= cols (obs (snd (event_loop es s))))%nat
  /\ (forall j, (j < cols (obs s))%nat ->
                radius_of j (obs (snd (event_loop es s))) = radius_of j (obs s)).
Proof.
  revert s. induction es as [|e rest IH]; intros s Hinv.
  - simpl. split; [exact Hinv|]. split; [lia | reflexivity].
  - destruct (handle_invariant e s Hinv) as (Hinv1 & Hc1 & Hr1).
    simpl. unfold bind.
    destruct (handle e s) as [[[]|err] s1] eqn:E; simpl in *.
    + destruct (IH s1 Hinv1) as (Hinv2 & Hc2 & Hr2).
      split; [exact Hinv2|]. split; [lia|].
      intros j Hj. rewrite Hr2 by lia. now apply Hr1.
    + auto.
Qed.

(** ** Runs of the event loop *)

Lemma event_loop_snoc (es : list Event) (e : Event) (s0 s : State) :
  event_loop (es ++ [e]) s0 = (Ok tt, s) ->
  exists s1, event_loop es s0 = (Ok tt, s1) /\ handle e s1 = (Ok tt, s).
Proof.
  revert s0. induction es as [|e0 es IH]; intros s0; simpl; unfold bind.
  - destruct (handle e s0) as [[[]|err] s1] eqn:E; simpl; [|discriminate].
    unfold ret. intros [= <-]. exists s0. split; [reflexivity | exact E].
  - destruct (handle e0 s0) as [[[]|err] s1] eqn:E;
      [|discriminate].
    apply IH.
Qed.

Lemma event_loop_reaches_invariant (es : list Event) (s0 s : State) :
  grab_invariant s0 -> event_loop es s0 = (Ok tt, s) -> grab_invariant s.
Proof.
  intros Hinv E. destruct (event_loop_invariant es s0 Hinv) as [H _].
  now rewrite E in H.
Qed.

(** An event that keeps [grabbed] and [grab_offset] keeps their origin. *)
Lemma grabbed_by_press_later (s0 s1 s : State) (es : list Event) (e : Event) :
  grabbed s = grabbed s1 -> grab_offset s = grab_offset s1 ->
  grabbed_by_press s0 es s1 ->
  grabbed_by_press s0 (es ++ [e]) s.
Proof.
  intros Hg Ho (es1 & qx & qy & fl & es2 & s' & ii & c & -> & Hp & Hl & Hh & Hi & Hc).
  exists es1, qx, qy, fl, (es2 ++ [e]), s', ii, c.
  rewrite <- app_assoc. simpl. repeat split; try assumption; congruence.
Qed.

(** Where a grabbed index comes from: in a run that starts with nothing
    grabbed, [grabbed] is [(size_t)(-1)] or a press event of the run stored
    it. *)
Lemma grab_history (es : list Event) (s0 s : State) :
  grab_invariant s0 -> grabbed s0 = to_size_t (-1) ->
  event_loop es s0 = (Ok tt, s) ->
  grabbed s = to_size_t (-1)
  \/ grabbed_by_press s0 es s.
Proof.
  intros Hinv0 Hg0. revert s.
  induction es as [|e es IH] using rev_ind; intros s E.
  - simpl in E. unfold ret in E. injection E as <-. now left.
  - apply event_loop_snoc in E. destruct E as (s1 & E1 & Ee).
    pose proof (event_loop_reaches_invariant es s0 s1 Hinv0 E1) as Hinv1.
    specialize (IH s1 E1).
    assert (Hsame : grabbed s = grabbed s1 -> grab_offset s = grab_offset s1 ->
              grabbed s = to_size_t (-1)
              \/ grabbed_by_press s0 (es ++ [e]) s).
    { intros Hg Ho. destruct IH as [IH | IH].
      - left. congruence.
      - right. now apply (grabbed_by_press_later s0 s1 s es e). }
    destruct e as [| |px py flags]; simpl in Ee.
    + destruct (cb_idle_grab_frame s1) as (_ & Hg & Ho).
      rewrite Ee in Hg, Ho. simpl in Hg, Ho. now apply Hsame.
    + apply handle_Draw_returns in Ee. subst s. now apply Hsame.
    + destruct (cb_mouse_cases px py flags s1 Hinv1)
        as [[_ E] | [(Hp & ii & c & Hl & E) | [(_ & _ & E) | [[_ E] | [[_ E]
           | (_ & _ & _ & _ & E)]]]]]; rewrite E in Ee.
      * injection Ee as <-. now apply Hsame.
      * injection Ee as <-. right.
        exists es, px, py, flags, [], s1, ii, c. repeat split; assumption.
      * injection Ee as <-. now apply Hsame.
      * destruct (drag_frame px py s1 Hinv1) as (s' & E' & Hs' & _).
        rewrite E' in Ee. injection Ee as <-.
        apply Hsame; rewrite Hs'; reflexivity.
      * injection Ee as <-. now left.
      * injection Ee as <-. now apply Hsame.
Qed.

(** ** The mouse callback and the obstacles *)

(** C5. A drag event, in a state that satisfies the grab invariant, returns
    and writes [obs] only; the matrix keeps its columns, every column but the
    grabbed one is unchanged, and of the grabbed one only the two centre
    coordinates are written (pointer plus grab offset) while its radius
    stays.  No radius is ever written after its obstacle was created:
    whatever events follow, every obstacle of [s] keeps its radius. *)
Theorem drag_moves_only_the_centre (px py : float) (flags : Z) (s : State) :
  grab_invariant s ->
  is_drag flags = true ->
  exists s',
    cb_mouse px py flags s = (Ok tt, s')
    /\ s' = set_obs (obs s') s
    /\ cols (obs s') = cols (obs s)
    /\ (forall j, radius_of j (obs s') = radius_of j (obs s))
    /\ (forall j, Z.of_nat j <> grabbed s ->
                  column j (obs s') = column j (obs s))
    /\ (grabbed s <> to_size_t (-1) ->
        exists x y r go0 go1 rest,
          column (Z.to_nat (grabbed s)) (obs s) = Some [x; y; r]
          /\ grab_offset s = go0 :: go1 :: rest
          /\ column (Z.to_nat (grabbed s)) (obs s')
             = Some [PrimFloat.add px go0; PrimFloat.add py go1; r])
    /\ (forall es j, (j < cols (obs s))%nat ->
          radius_of j (obs (snd (event_loop es s))) = radius_of j (obs s)).
Proof.
  intros Hinv Hd.
  destruct (drag_frame px py s Hinv)
    as (s' & E & Hs' & Hc & _ & _ & Hr & Hother & _ & Hmoved).
  exists s'. rewrite (cb_mouse_drag px py flags s Hd).
  split; [exact E|]. split; [exact Hs'|]. split; [exact Hc|].
  split; [exact Hr|]. split; [exact Hother|]. split; [exact Hmoved|].
  intros es j Hj. now apply event_loop_invariant.
Qed.

(** C9. A mouse event appends an obstacle exactly when its flags hold both
    [MOUSE_RELEASE] and [MOUSE_B3]; the obstacle it appends is
    [(px, py, 2.0)], the pointer position with radius two, and the obstacles
    that were there stay.  Every other mouse event, and every idle tick, keeps
    the number of obstacles.  Before the event loop, [main] has seeded
    [(3, 0, 2)] and [(0, 3, 2)]. *)
Theorem only_right_release_adds_obstacle (px py : float) (flags : Z) (s : State) :
  grab_invariant s ->
  let r := cb_mouse px py flags s in
  (adds_obstacle flags = true <->
   flag_set flags MOUSE_RELEASE = true /\ flag_set flags MOUSE_B3 = true)
  /\ (adds_obstacle flags = true ->
      fst r = Ok tt
      /\ cols (obs (snd r)) = S (cols (obs s))
      /\ column (cols (obs s)) (obs (snd r)) = Some [px; py; 2%float]
      /\ radius_of (cols (obs s)) (obs (snd r)) = Some 2%float
      /\ (forall j, (j < cols (obs s))%nat ->
                    column j (obs (snd r)) = column j (obs s)))
  /\ (adds_obstacle flags = false ->
      cols (obs (snd r)) = cols (obs s))
  /\ cols (obs (snd (cb_idle s))) = cols (obs s)
  /\ mcolumns (obs (snd (main_setup initial_state)))
     = [[3%float; 0%float; 2%float]; [0%float; 3%float; 2%float]].
Proof.
  intros Hinv r. pose proof Hinv as (Hm & _ & _).
  split; [unfold adds_obstacle; apply andb_true_iff|].
  split.
  { intros Ha. unfold r. rewrite (cb_mouse_add px py flags s Ha).
    rewrite (add_obs_columns _ _ _ s Hm). simpl.
    assert (Hlast : column (cols (obs s))
              (mkMatrix obs_dim (mcolumns (obs s) ++ [[px; py; 2%float]]))
            = Some [px; py; 2%float]).
    { unfold column, cols. simpl. rewrite lookup_app_r by lia.
      now rewrite Nat.sub_diag. }
    split; [reflexivity|]. split.
    { unfold cols. simpl. rewrite length_app. simpl. lia. }
    split; [exact Hlast|]. split.
    { now apply (radius_of_column _ _ px py). }
    intros j Hj. unfold column. simpl. now rewrite lookup_app_l. }
  split.
  { intros Ha. unfold r.
    destruct (cb_mouse_cases px py flags s Hinv)
      as [[Ha' _] | [(_ & ii & c & _ & E) | [(_ & _ & E) | [[_ E] | [[_ E]
         | (_ & _ & _ & _ & E)]]]]]; try rewrite E; try reflexivity.
    - congruence.
    - destruct (drag_frame px py s Hinv) as (s' & E' & _ & Hc & _).
      now rewrite E'. }
  split; [|reflexivity].
  destruct (cb_idle_grab_frame s) as (Ho & _). now rewrite Ho.
Qed.

(** C10. In a run of the event loop that starts with nothing grabbed, a drag
    event returns, so every coefficient it writes is in range; while
    [grabbed] is [(size_t)(-1)] it leaves the whole state unchanged; a
    grabbed index is the index of a column; and when the drag changes the
    obstacle matrix, an earlier press event of the run had found the pointer
    within an obstacle's radius and stored the lowest such index in
    [grabbed]. *)
Theorem drag_writes_only_what_a_press_grabbed
    (es : list Event) (s0 s : State) (px py : float) (flags : Z) :
  grab_invariant s0 -> grabbed s0 = to_size_t (-1) ->
  event_loop es s0 = (Ok tt, s) ->
  is_drag flags = true ->
  exists s',
    cb_mouse px py flags s = (Ok tt, s')
    /\ (grabbed s = to_size_t (-1) -> s' = s)
    /\ (grabbed s <> to_size_t (-1) ->
        (Z.to_nat (grabbed s) < cols (obs s))%nat)
    /\ cols (obs s') = cols (obs s)
    /\ mrows (obs s') = mrows (obs s)
    /\ (obs s' <> obs s -> grabbed_by_press s0 es s)
    /\ (forall qx qy m ii c, lowest_hit qx qy m = Some (ii, c) ->
          column ii m = Some c /\ within_radius qx qy c = true
          /\ forall j c', column j m = Some c' -> (j < ii)%nat ->
                          within_radius qx qy c' = false).
Proof.
  intros Hinv0 Hg0 Hrun Hd.
  pose proof (event_loop_reaches_invariant es s0 s Hinv0 Hrun) as Hinv.
  destruct (drag_frame px py s Hinv)
    as (s' & E & _ & Hc & Hr & _ & _ & _ & Hsent & _).
  exists s'. rewrite (cb_mouse_drag px py flags s Hd).
  split; [exact E|]. split; [exact Hsent|]. split.
  { intros Hn. destruct Hinv as (_ & _ & [Hg | Hg]); [contradiction | lia]. }
  split; [exact Hc|]. split; [exact Hr|]. split.
  { intros Hchanged.
    destruct (grab_history es s0 s Hinv0 Hg0 Hrun) as [Hg | Hh]; [|exact Hh].
    exfalso. apply Hchanged. now rewrite (Hsent Hg). }
  intros qx qy m ii c Hl.
  destruct (lowest_hit_Some qx qy m ii c Hl) as (H1 & H2 & H3 & _).
  auto.
Qed.

(** ** One call of the optimizer, and an obstacle appended before it *)

(** What a call of the optimizer does, case by case. *)
Lemma run_chomp_run (cd n : nat) (s : State) :
  run_chomp cd n s
  = if decide (length (qs s) ≠ cd \/ length (qe s) ≠ cd
               \/ length (xi s) ≠ (n * cd)%nat)
    then (Fail DimensionError, set_chomp (count_call (chomp s)) s)
    else if decide (n = 0%nat)
    then (Fail SingularMetricError, set_chomp (count_call (chomp s)) s)
    else
      let a := metric_in_use cd n (chomp s) in
      (Ok tt,
       set_xi (chomp_step cd n a
                 (qs s) (qe s) (xi s) (obstacles_of (obs s)))
         (set_chomp
            (count_gradient (store_metric cd n a (count_call (chomp s)))) s)).
Proof.
  unfold run_chomp, bind, modify, get. simpl.
  destruct (decide _) as [_|_]; [reflexivity|].
  destruct (decide (n = 0%nat)) as [_|_]; [reflexivity|].
  unfold cached_metric, metric_in_use, bind, get, modify, ret. simpl.
  destruct (metric_cache (chomp s)) as [[[cd' n'] a]|] eqn:Ec; simpl;
    [destruct (decide _) as [[-> ->]|_]|]; simpl; try reflexivity.
  unfold set_xi, set_chomp, count_gradient, store_metric, count_call. simpl.
  now rewrite Ec.
Qed.

(** The obstacle gradient at a waypoint is a sum over the obstacles: one more
    obstacle at the end of the set adds one more term. *)
Lemma obstacle_gradient_at_snoc (cd : nat) (os : list (float * float * float))
    (o : float * float * float) (q : Vector) :
  obstacle_gradient_at cd (os ++ [o]) q
  = vadd (obstacle_gradient_at cd os q) (obstacle_term cd q o).
Proof. unfold obstacle_gradient_at. now rewrite fold_left_app. Qed.

Lemma obstacles_of_snoc (m : Matrix) (px py radius : float) :
  obstacles_of (mkMatrix obs_dim (mcolumns m ++ [[px; py; radius]]))
  = obstacles_of m ++ [(px, py, radius)].
Proof. unfold obstacles_of. simpl. now rewrite omap_app. Qed.

(** C6. [add_obs] between two calls of the optimizer writes the obstacle
    matrix only: the optimizer's internals, and with them the cached
    smoothness metric, are the same value after the append, and so is the
    metric the next call works with.  The next call answers the same with and
    without the append and leaves the same metric in the cache; when it
    returns, the two trajectories it can write are the same update of the
    same [xi] with the same metric and the same smoothness gradient, and
    differ only in the obstacle gradient, which is taken over the old
    obstacles followed by the new one and so has one more term per
    waypoint. *)
Theorem append_changes_only_obstacle_gradient
    (cd n : nat) (px py radius : float) (s : State) :
  obstacle_matrix (obs s) ->
  let s1 := snd (add_obs px py radius s) in
  let a := metric_in_use cd n (chomp s) in
  let g_smooth := smooth_gradient cd n a (qs s) (qe s) (xi s) in
  let update := chomp_update a (xi s) g_smooth in
  chomp s1 = chomp s
  /\ metric_in_use cd n (chomp s1) = a
  /\ (metric_cache (chomp s) = None -> a = smoothness_metric cd n)
  /\ xi s1 = xi s /\ qs s1 = qs s /\ qe s1 = qe s
  /\ obstacles_of (obs s1) = obstacles_of (obs s) ++ [(px, py, radius)]
  /\ fst (run_chomp cd n s1) = fst (run_chomp cd n s)
  /\ metric_cache (chomp (snd (run_chomp cd n s1)))
     = metric_cache (chomp (snd (run_chomp cd n s)))
  /\ (fst (run_chomp cd n s) = Ok tt ->
      metric_cache (chomp (snd (run_chomp cd n s))) = Some (cd, n, a)
      /\ xi (snd (run_chomp cd n s))
         = update (obstacle_gradient cd n (obstacles_of (obs s)) (xi s))
      /\ xi (snd (run_chomp cd n s1))
         = update (obstacle_gradient cd n
                     (obstacles_of (obs s) ++ [(px, py, radius)]) (xi s)))
  /\ (forall os q,
        obstacle_gradient_at cd (os ++ [(px, py, radius)]) q
        = vadd (obstacle_gradient_at cd os q)
               (obstacle_term cd q (px, py, radius))).
Proof.
  intros Hm s1 a g_smooth update.
  assert (Es1 : s1 = set_obs (mkMatrix obs_dim
                                (mcolumns (obs s) ++ [[px; py; radius]])) s).
  { unfold s1. now rewrite (add_obs_columns px py radius s Hm). }
  assert (Eos : obstacles_of (obs s1) = obstacles_of (obs s) ++ [(px, py, radius)]).
  { rewrite Es1. simpl. apply obstacles_of_snoc. }
  split; [now rewrite Es1|]. split; [now rewrite Es1|].
  split; [intros Hnone; unfold a, metric_in_use; now rewrite Hnone|].
  split; [now rewrite Es1|]. split; [now rewrite Es1|].
  split; [now rewrite Es1|]. split; [exact Eos|].
  rewrite (run_chomp_run cd n s1), (run_chomp_run cd n s).
  rewrite Eos. rewrite Es1. simpl qs. simpl qe. simpl xi. simpl chomp.
  destruct (decide _) as [_|_].
  { simpl. split; [reflexivity|]. split; [reflexivity|].
    split; [intros [=]|]. intros os q. apply obstacle_gradient_at_snoc. }
  destruct (decide (n = 0%nat)) as [_|_].
  { simpl. split; [reflexivity|]. split; [reflexivity|].
    split; [intros [=]|]. intros os q. apply obstacle_gradient_at_snoc. }
  simpl. split; [reflexivity|]. split; [reflexivity|].
  split; [intros _; repeat split; reflexivity|].
  intros os q. apply obstacle_gradient_at_snoc.
Qed.

(** ** The state in which the event loop starts *)

(** Whatever the first call of the optimizer in [main] answers, the state
    [main] has reached when it stops or enters the event loop holds the two
    seeded obstacles, has nothing grabbed and satisfies the grab invariant. *)
Lemma main_before_loop_grab_invariant :
  grab_invariant (snd (main_before_loop initial_state))
  /\ grabbed (snd (main_before_loop initial_state)) = to_size_t (-1)
  /\ mcolumns (obs (snd (main_before_loop initial_state)))
     = [[3%float; 0%float; 2%float]; [0%float; 3%float; 2%float]].
Proof.
  assert (E : (fun s => (obs s, grabbed s, grab_offset s))
                (snd (main_before_loop initial_state))
              = (mkMatrix obs_dim
                   [[3%float; 0%float; 2%float]; [0%float; 3%float; 2%float]],
                 to_size_t (-1), replicate 3 uninitialized)).
  { assert (Hk : keeps (fun s => (obs s, grabbed s, grab_offset s))
                   (run_chomp cdim nq ;;; update_robots ;;;
                    modify (set_state PAUSE))).
    { apply keeps_bind; [apply keeps_run_chomp; reflexivity | intros _].
      apply keeps_bind; [apply keeps_update_robots; reflexivity | intros _].
      apply keeps_modify. reflexivity. }
    unfold main_before_loop.
    rewrite (bind_Ok main_setup _ initial_state tt
               (snd (main_setup initial_state)) eq_refl).
    rewrite Hk. reflexivity. }
  cbv beta in E.
  assert (Ho : obs (snd (main_before_loop initial_state))
               = mkMatrix obs_dim
                   [[3%float; 0%float; 2%float]; [0%float; 3%float; 2%float]])
    by congruence.
  assert (Hg : grabbed (snd (main_before_loop initial_state)) = to_size_t (-1))
    by congruence.
  assert (Hgo : grab_offset (snd (main_before_loop initial_state))
                = replicate 3 uninitialized) by congruence.
  unfold grab_invariant. rewrite Ho, Hg, Hgo.
  split; [|split; reflexivity].
  split; [split; [repeat constructor | now right]|].
  split; [simpl; lia | now left].
Qed.

(** * Further properties of the driver *)

(** ** [add_obs] on any matrix, and one call after another *)

Lemma length_resize_column (r : nat) (c : list float) :
  length (resize_column r c) = r.
Proof.
  unfold resize_column. rewrite length_app, length_take, length_replicate. lia.
Qed.

(** What [add_obs] leaves in [obs], whatever matrix it finds there. *)
Lemma add_obs_run (px py radius : float) (s : State) :
  add_obs px py radius s
  = (Ok tt,
     set_obs (mkMatrix obs_dim
                (map (resize_column obs_dim) (mcolumns (obs s))
                   ++ [[px; py; radius]])) s).
Proof.
  unfold add_obs, bind, get, conservativeResize, write_block_col, cols.
  simpl mrows. simpl mcolumns.
  rewrite firstn_all2 by lia.
  replace (length (mcolumns (obs s)) + 1 - length (mcolumns (obs s)))%nat
    with 1%nat by lia.
  rewrite length_app, length_map. simpl length.
  replace (length (mcolumns (obs s)) + 1 - 1)%nat
    with (length (map (resize_column obs_dim) (mcolumns (obs s))) + 0)%nat
    by (rewrite length_map; lia).
  destruct (decide (0 + 3 <= obs_dim)%nat) as [_|Hn]; [|unfold obs_dim in Hn; lia].
  rewrite lookup_app_r by lia.
  replace (length (map (resize_column obs_dim) (mcolumns (obs s))) + 0
           - length (map (resize_column obs_dim) (mcolumns (obs s))))%nat
    with 0%nat by lia.
  simpl. unfold modify. do 2 f_equal. f_equal.
  rewrite insert_app_r. reflexivity.
Qed.

(** X1. [add_obs] returns on every matrix, not only on an obstacle matrix,
    and writes [obs] only.  What it leaves is always an obstacle matrix with
    three rows and one more column, the last one being [(px, py, radius)];
    a column that was there has three rows afterwards and keeps its
    coefficients in the rows it had before, so it is unchanged when it had
    three. *)
Theorem add_obs_makes_obstacle_matrix (px py radius : float) (s : State) :
  exists m,
    add_obs px py radius s = (Ok tt, set_obs m s)
    /\ obstacle_matrix m /\ mrows m = obs_dim
    /\ cols m = S (cols (obs s))
    /\ column (cols (obs s)) m = Some [px; py; radius]
    /\ (forall j c, column j (obs s) = Some c ->
          exists c', column j m = Some c' /\ length c' = obs_dim
                     /\ take (length c) c' = take obs_dim c)
    /\ (forall j c, column j (obs s) = Some c -> length c = obs_dim ->
          column j m = Some c).
Proof.
  eexists. split; [apply add_obs_run|].
  assert (Hold : forall j c, column j (obs s) = Some c ->
            column j (mkMatrix obs_dim
                        (map (resize_column obs_dim) (mcolumns (obs s))
                           ++ [[px; py; radius]]))
            = Some (resize_column obs_dim c)).
  { unfold column. simpl. intros j c Hc.
    rewrite lookup_app_l by (rewrite length_map; eapply lookup_lt_Some; exact Hc).
    rewrite list_lookup_fmap, Hc. reflexivity. }
  split.
  { split; [|now right]. unfold wf_matrix. simpl. apply Forall_app. split.
    - apply Forall_forall. intros c Hc. apply list_elem_of_fmap in Hc.
      destruct Hc as (c0 & -> & _). apply length_resize_column.
    - repeat constructor. }
  split; [reflexivity|]. split.
  { unfold cols. simpl. rewrite length_app, length_map. simpl. lia. }
  split.
  { unfold column, cols. simpl.
    rewrite lookup_app_r by (rewrite length_map; lia).
    rewrite length_map, Nat.sub_diag. reflexivity. }
  split.
  { intros j c Hc. exists (resize_column obs_dim c).
    split; [now apply Hold|]. split; [apply length_resize_column|].
    unfold resize_column.
    destruct (decide (length c <= obs_dim)%nat) as [Hle|Hgt].
    - rewrite (take_ge c obs_dim) by exact Hle. apply take_app_length.
    - replace (obs_dim - length c)%nat with 0%nat by lia.
      simpl. rewrite app_nil_r. apply take_ge. rewrite length_take. lia. }
  intros j c Hc Hlen. rewrite (Hold j c Hc). f_equal.
  now apply resize_column_id.
Qed.

(** X2. Obstacles added one after another to an obstacle matrix are stored
    in that order behind the ones that were there, nothing else is written,
    and reading the matrix back column by column gives the old obstacles
    followed by the new ones: from the empty matrix, exactly the list that
    was added. *)
Theorem add_all_obs_in_order (os : list (float * float * float)) (s : State) :
  obstacle_matrix (obs s) ->
  exists s',
    add_all_obs os s = (Ok tt, s')
    /\ s' = set_obs (obs s') s
    /\ obstacle_matrix (obs s')
    /\ mcolumns (obs s') = mcolumns (obs s) ++ columns_of os
    /\ obstacles_of (obs s') = obstacles_of (obs s) ++ os
    /\ (mcolumns (obs s) = [] -> obstacles_of (obs s') = os).
Proof.
  revert s. induction os as [|[[x y] r] os IH]; intros s Hm.
  - exists s. split; [reflexivity|]. split; [now destruct s|].
    split; [exact Hm|]. simpl. rewrite !app_nil_r.
    split; [reflexivity|]. split; [reflexivity|].
    intros Hnil. unfold obstacles_of. now rewrite Hnil.
  - simpl add_all_obs. unfold bind.
    rewrite (add_obs_columns x y r s Hm).
    set (s1 := set_obs (mkMatrix obs_dim (mcolumns (obs s) ++ [[x; y; r]])) s).
    assert (Hm1 : obstacle_matrix (obs s1))
      by (apply obstacle_matrix_snoc; [exact Hm | reflexivity]).
    destruct (IH s1 Hm1) as (s' & E & Hs' & Hm' & Hc & Ho & _).
    exists s'. split; [exact E|].
    split; [rewrite Hs' at 1; now destruct s|].
    split; [exact Hm'|].
    assert (Hcols : mcolumns (obs s')
                    = mcolumns (obs s) ++ columns_of ((x, y, r) :: os)).
    { rewrite Hc. simpl. now rewrite <- app_assoc. }
    split; [exact Hcols|].
    assert (Hobs : obstacles_of (obs s') = obstacles_of (obs s) ++ (x, y, r) :: os).
    { rewrite Ho. unfold s1. simpl obs. rewrite obstacles_of_snoc.
      now rewrite <- app_assoc. }
    split; [exact Hobs|].
    intros Hnil. rewrite Hobs. unfold obstacles_of. now rewrite Hnil.
Qed.

(** ** [update_robots] *)

Lemma update_in_run rd wr (position : Vector) (s : State) :
  update_in rd wr position s
  = if decide (length position ≠ 2%nat)
    then (Fail (Errx_Robot_update (length position)), wr (rd s) s)
    else (Ok tt, wr (mkRobot position) s).
Proof.
  unfold update_in, Robot_update. now destruct (decide _).
Qed.

Lemma show_waypoint_run (ii : nat) (r0 : Robot) (s : State) :
  robots s !! ii = Some r0 ->
  (ii * cdim + cdim <= length (xi s))%nat ->
  show_waypoint ii s
  = (Ok tt,
     set_robots (<[ii := mkRobot (take cdim (drop (ii * cdim) (xi s)))]> (robots s))
       s).
Proof.
  intros Hr Hx. unfold show_waypoint, bind, get, vblock.
  destruct (decide _) as [_|Hn]; [|contradiction].
  simpl. unfold update_robot_at. rewrite Hr. unfold Robot_update.
  destruct (decide _) as [Hn|_]; [|reflexivity].
  exfalso. apply Hn. rewrite length_take, length_drop. unfold cdim in *. lia.
Qed.

Lemma show_waypoint_short (ii : nat) (s : State) :
  (length (xi s) < ii * cdim + cdim)%nat ->
  show_waypoint ii s = (Fail EigenAssert, s).
Proof.
  intros Hx. unfold show_waypoint, bind, get, vblock.
  destruct (decide _) as [Hn|_]; [lia | reflexivity].
Qed.

(** The loop of [update_robots] from waypoint [i] on, when the trajectory is
    long enough: the robots [i] to [i + k - 1] are set, the others kept. *)
Lemma show_waypoints_run (k : nat) : forall (i : nat) (s : State),
  (i + k <= length (robots s))%nat ->
  ((i + k) * cdim <= length (xi s))%nat ->
  exists rs,
    for_each (seq i k) show_waypoint s = (Ok tt, set_robots rs s)
    /\ length rs = length (robots s)
    /\ forall j,
         rs !! j
         = if decide (i <= j < i + k)%nat
           then Some (mkRobot (take cdim (drop (j * cdim) (xi s))))
           else robots s !! j.
Proof.
  induction k as [|k IH]; intros i s Hr Hx.
  - exists (robots s). simpl. split; [now destruct s|]. split; [reflexivity|].
    intros j. destruct (decide _) as [Hj|_]; [lia | reflexivity].
  - destruct (lookup_lt_is_Some_2 (robots s) i ltac:(lia)) as [r0 Hr0].
    simpl. unfold bind.
    rewrite (show_waypoint_run i r0 s Hr0) by (unfold cdim in *; lia).
    set (rs1 := <[i := mkRobot (take cdim (drop (i * cdim) (xi s)))]> (robots s)).
    assert (Hlen1 : length rs1 = length (robots s))
      by (unfold rs1; apply length_insert).
    destruct (IH (S i) (set_robots rs1 s)) as (rs & E & Hlen & Hlook).
    { simpl. lia. }
    { simpl. unfold cdim in *. lia. }
    exists rs. split; [rewrite E; now destruct s|].
    split; [simpl in Hlen; lia|].
    intros j. rewrite Hlook.
    change (xi (set_robots rs1 s)) with (xi s).
    change (robots (set_robots rs1 s)) with rs1.
    destruct (decide (S i <= j < S i + k)%nat) as [Hj|Hj].
    + destruct (decide (i <= j < i + S k)%nat) as [_|Hn]; [reflexivity | lia].
    + destruct (decide (j = i)) as [->|Hne].
      * unfold rs1. rewrite list_lookup_insert_eq by lia.
        destruct (decide (i <= i < i + S k)%nat) as [_|Hn]; [reflexivity | lia].
      * unfold rs1. rewrite list_lookup_insert_ne by congruence.
        destruct (decide (i <= j < i + S k)%nat) as [Hn|_]; [lia | reflexivity].
Qed.

(** The loop of [update_robots] when the trajectory ends before waypoint
    [i + k]: a block is out of range and the loop stops there. *)
Lemma show_waypoints_short (k : nat) : forall (i : nat) (s : State),
  (i + k <= length (robots s))%nat ->
  (i * cdim <= length (xi s))%nat ->
  (length (xi s) < (i + k) * cdim)%nat ->
  fst (for_each (seq i k) show_waypoint s) = Fail EigenAssert.
Proof.
  induction k as [|k IH]; intros i s Hr Hlo Hhi.
  - unfold cdim in *. lia.
  - simpl. unfold bind.
    destruct (decide (i * cdim + cdim <= length (xi s))%nat) as [Hx|Hx].
    + destruct (lookup_lt_is_Some_2 (robots s) i ltac:(lia)) as [r0 Hr0].
      rewrite (show_waypoint_run i r0 s Hr0 Hx).
      apply IH; simpl; rewrite ?length_insert; unfold cdim in *; lia.
    + rewrite show_waypoint_short by lia. reflexivity.
Qed.

Lemma length_resize_robots (n : nat) (rs : list Robot) :
  length (resize_robots n rs) = n.
Proof.
  unfold resize_robots. rewrite length_app, length_take, length_replicate. lia.
Qed.

(** [update_robots] after its two first steps have returned. *)
Lemma update_robots_run (s : State) :
  length (qs s) = 2%nat -> length (qe s) = 2%nat ->
  update_robots s
  = for_each (seq 0 nq) show_waypoint
      (set_robots (resize_robots nq (robots s))
         (set_rend (mkRobot (qe s)) (set_rstart (mkRobot (qs s)) s))).
Proof.
  intros Hs He. unfold update_robots. unfold bind at 1. unfold get at 1.
  unfold bind at 1. rewrite update_in_run.
  destruct (decide _) as [Hn|_]; [contradiction|].
  unfold bind at 1. rewrite update_in_run.
  destruct (decide _) as [Hn|_]; [contradiction|].
  unfold bind at 1.
  destruct (decide (nq ≠ length (robots s))) as [Hn|Hn]; unfold modify, ret.
  - reflexivity.
  - apply dec_stable in Hn.
    assert (E : resize_robots nq (robots s) = robots s).
    { unfold resize_robots. rewrite Hn, firstn_all, Nat.sub_diag. simpl.
      apply app_nil_r. }
    rewrite E. reflexivity.
Qed.

(** [update_robots] when start and goal have two components and the
    trajectory is long enough. *)
Lemma update_robots_returns (t : State) :
  length (qs t) = 2%nat -> length (qe t) = 2%nat ->
  (nq * cdim <= length (xi t))%nat ->
  update_robots t
  = (Ok tt,
     set_robots
       (map (fun ii => mkRobot (take cdim (drop (ii * cdim) (xi t)))) (seq 0 nq))
       (set_rend (mkRobot (qe t)) (set_rstart (mkRobot (qs t)) t))).
Proof.
  intros Hs He Hx. rewrite (update_robots_run t Hs He).
  destruct (show_waypoints_run nq 0
              (set_robots (resize_robots nq (robots t))
                 (set_rend (mkRobot (qe t)) (set_rstart (mkRobot (qs t)) t))))
    as (rs & E & Hlen & Hlook);
    [simpl; rewrite length_resize_robots; lia
    | simpl; unfold nq, cdim in *; lia |].
  rewrite E. f_equal. simpl in Hlen, Hlook.
  rewrite length_resize_robots in Hlen.
  assert (Ers : rs = map (fun ii => mkRobot (take cdim (drop (ii * cdim) (xi t))))
                       (seq 0 nq)).
  { apply list_eq. intros j. rewrite Hlook, list_lookup_fmap.
    destruct (decide (0 <= j < nq)%nat) as [Hj|Hj].
    - rewrite lookup_seq_lt by lia. reflexivity.
    - rewrite lookup_seq_ge by lia. simpl.
      apply lookup_ge_None. rewrite length_resize_robots. lia. }
  rewrite Ers. reflexivity.
Qed.

(** [update_robots] returns only then. *)
Lemma update_robots_returns_only (s : State) :
  fst (update_robots s) = Ok tt ->
  length (qs s) = 2%nat /\ length (qe s) = 2%nat
  /\ (nq * cdim <= length (xi s))%nat.
Proof.
  intros Hok.
  destruct (decide (length (qs s) = 2%nat)) as [Hs|Hs].
  - destruct (decide (length (qe s) = 2%nat)) as [He|He].
    + destruct (decide (nq * cdim <= length (xi s))%nat) as [Hx|Hx]; [auto|].
      rewrite (update_robots_run s Hs He) in Hok.
      rewrite show_waypoints_short in Hok; [discriminate | | |];
        simpl; rewrite ?length_resize_robots; unfold nq, cdim in *; lia.
    + exfalso. revert Hok. unfold update_robots. unfold bind at 1.
      unfold get at 1. unfold bind at 1. rewrite update_in_run.
      destruct (decide _) as [Hn|_]; [contradiction|].
      unfold bind at 1. rewrite update_in_run.
      destruct (decide _) as [_|Hn]; [discriminate | contradiction].
  - exfalso. revert Hok. unfold update_robots. unfold bind at 1.
    unfold get at 1. unfold bind at 1. rewrite update_in_run.
    destruct (decide _) as [_|Hn]; [discriminate | contradiction].
Qed.

(** X3. How [update_robots] ends.  With a start that has not two components
    it leaves through the [errx] of [Robot::update] before anything is
    written; with a goal that has not two components it leaves there, the
    start robot already updated; with a trajectory shorter than [nq * cdim]
    a block of it is out of range.  It returns exactly when start and goal
    have two components and the trajectory has at least [nq * cdim]
    coefficients. *)
Theorem update_robots_outcome (s : State) :
  (length (qs s) <> 2%nat ->
   update_robots s = (Fail (Errx_Robot_update (length (qs s))), s))
  /\ (length (qs s) = 2%nat -> length (qe s) <> 2%nat ->
      update_robots s
      = (Fail (Errx_Robot_update (length (qe s))), set_rstart (mkRobot (qs s)) s))
  /\ (length (qs s) = 2%nat -> length (qe s) = 2%nat ->
      (length (xi s) < nq * cdim)%nat ->
      fst (update_robots s) = Fail EigenAssert)
  /\ (fst (update_robots s) = Ok tt <->
      length (qs s) = 2%nat /\ length (qe s) = 2%nat
      /\ (nq * cdim <= length (xi s))%nat).
Proof.
  assert (H1 : length (qs s) <> 2%nat ->
               update_robots s = (Fail (Errx_Robot_update (length (qs s))), s)).
  { intros Hs. unfold update_robots. unfold bind at 1. unfold get at 1.
    unfold bind at 1. rewrite update_in_run.
    destruct (decide _) as [_|Hn]; [|contradiction]. now destruct s. }
  assert (H2 : length (qs s) = 2%nat -> length (qe s) <> 2%nat ->
               update_robots s
               = (Fail (Errx_Robot_update (length (qe s))),
                  set_rstart (mkRobot (qs s)) s)).
  { intros Hs He. unfold update_robots. unfold bind at 1. unfold get at 1.
    unfold bind at 1. rewrite update_in_run.
    destruct (decide _) as [Hn|_]; [contradiction|].
    unfold bind at 1. rewrite update_in_run.
    destruct (decide _) as [_|Hn]; [|contradiction]. now destruct s. }
  assert (H3 : length (qs s) = 2%nat -> length (qe s) = 2%nat ->
               (length (xi s) < nq * cdim)%nat ->
               fst (update_robots s) = Fail EigenAssert).
  { intros Hs He Hx. rewrite (update_robots_run s Hs He).
    apply show_waypoints_short; simpl; rewrite ?length_resize_robots;
      unfold nq, cdim in *; lia. }
  split; [exact H1|]. split; [exact H2|]. split; [exact H3|]. split.
  - intros Hok.
    destruct (decide (length (qs s) = 2%nat)) as [Hs|Hs];
      [|rewrite (H1 Hs) in Hok; discriminate].
    destruct (decide (length (qe s) = 2%nat)) as [He|He];
      [|rewrite (H2 Hs He) in Hok; discriminate].
    destruct (decide (nq * cdim <= length (xi s))%nat) as [Hx|Hx]; [auto|].
    rewrite H3 in Hok by (try assumption; lia). discriminate.
  - intros (Hs & He & Hx). rewrite (update_robots_run s Hs He).
    destruct (show_waypoints_run nq 0
                (set_robots (resize_robots nq (robots s))
                   (set_rend (mkRobot (qe s)) (set_rstart (mkRobot (qs s)) s))))
      as (rs & E & _);
      [simpl; rewrite length_resize_robots; lia
      | simpl; unfold nq, cdim in *; lia |].
    now rewrite E.
Qed.

(** X4. When [update_robots] returns, the start robot stands at [qs], the
    goal robot at [qe], there are exactly [nq] waypoint robots and robot
    [ii] stands at waypoint [ii] of the trajectory; nothing but the robots is
    written; and a second call changes nothing. *)
Theorem update_robots_shows_trajectory (s : State) :
  length (qs s) = 2%nat -> length (qe s) = 2%nat ->
  (nq * cdim <= length (xi s))%nat ->
  exists s',
    update_robots s = (Ok tt, s')
    /\ rstart s' = mkRobot (qs s) /\ rend s' = mkRobot (qe s)
    /\ robots s'
       = map (fun ii => mkRobot (take cdim (drop (ii * cdim) (xi s)))) (seq 0 nq)
    /\ s' = set_robots (robots s') (set_rend (rend s') (set_rstart (rstart s') s))
    /\ update_robots s' = (Ok tt, s').
Proof.
  intros Hs He Hx. eexists.
  split; [apply update_robots_returns; assumption|].
  simpl. split; [reflexivity|]. split; [reflexivity|]. split; [reflexivity|].
  split; [reflexivity|].
  rewrite update_robots_returns by assumption. simpl. reflexivity.
Qed.

(** ** Properties that every callback preserves *)

Lemma preserves_ret {A} (P : State -> Prop) (a : A) : preserves P (ret a).
Proof. intros s H. exact H. Qed.

Lemma preserves_get (P : State -> Prop) : preserves P get.
Proof. intros s H. exact H. Qed.

Lemma preserves_asserted {A} (P : State -> Prop) (o : option A) :
  preserves P (asserted o).
Proof. destruct o; intros s H; exact H. Qed.

Lemma preserves_modify (P : State -> Prop) (g : State -> State) :
  (forall s, P s -> P (g s)) -> preserves P (modify g).
Proof. intros Hg s H. now apply Hg. Qed.

Lemma preserves_bind {A B} (P : State -> Prop) (c : M A) (k : A -> M B) :
  preserves P c -> (forall a, preserves P (k a)) -> preserves P (bind c k).
Proof.
  intros Hc Hk s H. unfold bind. specialize (Hc s H).
  destruct (c s) as [[a|e] s']; simpl in Hc; [now apply Hk | exact Hc].
Qed.

Lemma preserves_for_each (P : State -> Prop) (iis : list nat)
    (body : nat -> M unit) :
  (forall ii, preserves P (body ii)) -> preserves P (for_each iis body).
Proof.
  intros Hb. induction iis as [|ii rest IH]; simpl.
  - apply preserves_ret.
  - apply preserves_bind; [apply Hb | intros _; exact IH].
Qed.

(** A property of a component that a computation keeps is preserved. *)
Lemma keeps_preserves {X A} (f : State -> X) (P : State -> Prop) (c : M A) :
  (forall s s', f s' = f s -> P s -> P s') -> keeps f c -> preserves P c.
Proof. intros HP Hk s H. apply (HP s); [apply Hk | exact H]. Qed.

(** ** Robots can always be drawn *)

Lemma robots_drawable_frame (s s' : State) :
  (rstart s', rend s', robots s') = (rstart s, rend s, robots s) ->
  robots_drawable s -> robots_drawable s'.
Proof. unfold robots_drawable. intros [= -> -> ->]. auto. Qed.

Lemma Robot_update_two_components (position : Vector) (r : Robot) :
  two_components r -> two_components (snd (Robot_update position r)).
Proof.
  intros Hr. unfold Robot_update.
  destruct (decide _) as [_|Hn]; [exact Hr|].
  apply dec_stable in Hn. exact Hn.
Qed.

Lemma preserves_update_robots : preserves robots_drawable update_robots.
Proof.
  unfold update_robots.
  apply preserves_bind; [apply preserves_get | intros s0].
  apply preserves_bind.
  { intros s (H1 & H2 & H3). unfold update_in.
    pose proof (Robot_update_two_components (qs s0) (rstart s) H1) as Hu.
    destruct (Robot_update (qs s0) (rstart s)) as [o r]. simpl in *.
    split; [exact Hu | split; assumption]. }
  intros _. apply preserves_bind.
  { intros s (H1 & H2 & H3). unfold update_in.
    pose proof (Robot_update_two_components (qe s0) (rend s) H2) as Hu.
    destruct (Robot_update (qe s0) (rend s)) as [o r]. simpl in *.
    split; [exact H1 | split; assumption]. }
  intros _. apply preserves_bind.
  { destruct (decide _); [|apply preserves_ret].
    apply preserves_modify. intros s (H1 & H2 & H3).
    split; [exact H1|]. split; [exact H2|]. simpl.
    unfold resize_robots. apply Forall_app. split.
    - now apply Forall_take.
    - apply Forall_replicate. reflexivity. }
  intros _. apply preserves_for_each. intros ii.
  apply preserves_bind; [apply preserves_get | intros s1].
  apply preserves_bind; [apply preserves_asserted | intros position].
  intros s (H1 & H2 & H3). unfold update_robot_at.
  destruct (robots s !! ii) as [r0|] eqn:E; [|now split].
  assert (H0 : two_components r0)
    by (rewrite Forall_lookup in H3; exact (H3 ii r0 E)).
  pose proof (Robot_update_two_components position r0 H0) as Hu.
  destruct (Robot_update position r0) as [o r]. simpl in *.
  split; [exact H1|]. split; [exact H2|].
  now apply Forall_insert.
Qed.

Lemma keeps_add_obs {X} (f : State -> X) (px py radius : float) :
  (forall m s, f (set_obs m s) = f s) -> keeps f (add_obs px py radius).
Proof.
  intros Ho. unfold add_obs.
  repeat first [frame_step | apply keeps_modify; intros ?; apply Ho].
Qed.

Lemma keeps_drag {X} (f : State -> X) (px py : float) :
  (forall m s, f (set_obs m s) = f s) -> keeps f (drag px py).
Proof.
  intros Ho. unfold drag.
  repeat first [frame_step | apply keeps_modify; intros ?; apply Ho].
Qed.

(** A mouse event writes the obstacles, the grab state and the mode, and
    nothing else. *)
Lemma keeps_cb_mouse {X} (f : State -> X) (px py : float) (flags : Z) :
  (forall m s, f (set_obs m s) = f s) ->
  (forall v s, f (set_grab_offset v s) = f s) ->
  (forall g s, f (set_grabbed g s) = f s) ->
  (forall md s, f (set_state md s) = f s) ->
  keeps f (cb_mouse px py flags).
Proof.
  intros Ho Hv Hg Hm. unfold cb_mouse.
  destruct (_ && _); [now apply keeps_add_obs|].
  destruct (flag_set flags MOUSE_PRESS).
  { apply keeps_bind; [apply keeps_get | intros s0].
    apply keeps_for_break. intros ii. now apply keeps_try_grab. }
  destruct (flag_set flags MOUSE_DRAG); [now apply keeps_drag|].
  destruct (flag_set flags MOUSE_RELEASE); [|apply keeps_ret].
  apply keeps_bind; [|intros _]; apply keeps_modify; auto.
Qed.

Lemma keeps_handle {X} (f : State -> X) (e : Event) :
  (forall c s, f (set_chomp c s) = f s) ->
  (forall v s, f (set_xi v s) = f s) ->
  (forall r s, f (set_rstart r s) = f s) ->
  (forall r s, f (set_rend r s) = f s) ->
  (forall rs s, f (set_robots rs s) = f s) ->
  (forall m s, f (set_obs m s) = f s) ->
  (forall v s, f (set_grab_offset v s) = f s) ->
  (forall g s, f (set_grabbed g s) = f s) ->
  (forall md s, f (set_state md s) = f s) ->
  keeps f (handle e).
Proof.
  intros. destruct e; simpl;
    [now apply keeps_cb_idle | | now apply keeps_cb_mouse].
  apply keeps_bind; [apply keeps_cb_draw | intros ?; apply keeps_ret].
Qed.

Lemma keeps_event_loop {X} (f : State -> X) (es : list Event) :
  (forall e, In e es -> keeps f (handle e)) -> keeps f (event_loop es).
Proof.
  induction es as [|e rest IH]; intros H; simpl.
  - apply keeps_ret.
  - apply keeps_bind; [apply H; now left | intros _].
    apply IH. intros e' He'. apply H. now right.
Qed.

Lemma preserves_handle_robots (e : Event) : preserves robots_drawable (handle e).
Proof.
  destruct e as [| |px py flags]; simpl.
  - unfold cb_idle. apply preserves_bind; [apply preserves_get | intros s0].
    destruct (state s0); [apply preserves_ret | |];
      (apply preserves_bind;
       [apply (keeps_preserves (fun s => (rstart s, rend s, robots s)));
        [apply robots_drawable_frame | apply keeps_run_chomp; reflexivity]
       | intros _; apply preserves_update_robots]).
  - intros s H. change (robots_drawable (snd (handle Draw s))).
    now rewrite handle_Draw.
  - apply (keeps_preserves (fun s => (rstart s, rend s, robots s)));
      [apply robots_drawable_frame | apply keeps_cb_mouse; reflexivity].
Qed.

Lemma Robot_draw_two_components (r : Robot) :
  two_components r -> is_Some (Robot_draw r).
Proof.
  unfold two_components, Robot_draw. intros H.
  destruct (position_ r) as [|x [|y [|]]]; try discriminate. simpl. eauto.
Qed.

(** X5. No robot ever has a position that [Robot::draw] cannot read: the
    robots the program starts with have two components, every event keeps
    this, whether its callback returns or fails, and so does [main] before
    the loop; and a robot with two components is drawn without a failed
    range assertion. *)
Theorem robots_always_drawable (es : list Event) (s : State) :
  robots_drawable initial_state
  /\ robots_drawable (snd (main_before_loop initial_state))
  /\ (robots_drawable s -> robots_drawable (snd (event_loop es s)))
  /\ (robots_drawable s ->
      is_Some (Robot_draw (rstart s)) /\ is_Some (Robot_draw (rend s))
      /\ Forall (fun r => is_Some (Robot_draw r)) (robots s)).
Proof.
  assert (H0 : robots_drawable initial_state).
  { split; [reflexivity|]. split; [reflexivity | constructor]. }
  split; [exact H0|]. split.
  { unfold main_before_loop.
    assert (Hs : preserves robots_drawable main_setup).
    { apply (keeps_preserves (fun s => (rstart s, rend s, robots s)));
        [apply robots_drawable_frame|].
      unfold main_setup.
      repeat first [frame_step | apply keeps_add_obs; reflexivity]. }
    revert H0. generalize initial_state.
    apply preserves_bind; [exact Hs | intros _].
    apply preserves_bind.
    { apply (keeps_preserves (fun s => (rstart s, rend s, robots s)));
        [apply robots_drawable_frame | apply keeps_run_chomp; reflexivity]. }
    intros _. apply preserves_bind; [apply preserves_update_robots | intros _].
    apply preserves_modify. intros t Ht. exact Ht. }
  split.
  { revert s. induction es as [|e rest IH]; intros s Hs; [exact Hs|].
    simpl. revert s Hs.
    apply preserves_bind; [apply preserves_handle_robots | intros _].
    intros s Hs. now apply IH. }
  intros (H1 & H2 & H3).
  split; [now apply Robot_draw_two_components|].
  split; [now apply Robot_draw_two_components|].
  eapply Forall_impl; [exact H3|]. apply Robot_draw_two_components.
Qed.

(** X6. A mouse event, whatever its flags and whatever the state, writes
    only the obstacle matrix, the grab state and the mode: trajectory, start,
    goal, robots and the optimizer's internals are what they were.  So start
    and goal are the same after any run of the event loop, and after a run
    without idle ticks so are the trajectory and the robots. *)
Theorem mouse_events_keep_the_trajectory (px py : float) (flags : Z)
    (es : list Event) (s : State) :
  (let s' := snd (cb_mouse px py flags s) in
   s' = set_state (state s')
          (set_grabbed (grabbed s')
             (set_grab_offset (grab_offset s') (set_obs (obs s') s))))
  /\ qs (snd (event_loop es s)) = qs s
  /\ qe (snd (event_loop es s)) = qe s
  /\ (Forall (fun e => e <> Idle) es ->
      xi (snd (event_loop es s)) = xi s
      /\ robots (snd (event_loop es s)) = robots s
      /\ rstart (snd (event_loop es s)) = rstart s
      /\ rend (snd (event_loop es s)) = rend s
      /\ chomp (snd (event_loop es s)) = chomp s).
Proof.
  split.
  { intros s'.
    assert (K : (fun s => (xi s, qs s, qe s, rstart s, rend s, robots s, chomp s)) s'
                = (xi s, qs s, qe s, rstart s, rend s, robots s, chomp s)).
    { unfold s'.
      apply (keeps_cb_mouse
               (fun s => (xi s, qs s, qe s, rstart s, rend s, robots s, chomp s)));
        reflexivity. }
    cbv beta in K. destruct s', s. simpl in *.
    unfold set_state, set_grabbed, set_grab_offset, set_obs. simpl. congruence. }
  assert (K : (fun s => (qs s, qe s)) (snd (event_loop es s)) = (qs s, qe s)).
  { apply (keeps_event_loop (fun s => (qs s, qe s))).
    intros e _. apply keeps_handle; reflexivity. }
  cbv beta in K. split; [congruence|]. split; [congruence|].
  intros Hes.
  assert (K' : (fun s => (xi s, robots s, rstart s, rend s, chomp s))
                 (snd (event_loop es s))
               = (xi s, robots s, rstart s, rend s, chomp s)).
  { apply (keeps_event_loop (fun s => (xi s, robots s, rstart s, rend s, chomp s))).
    intros e He. rewrite Forall_forall in Hes.
    destruct e as [| |qx qy fl].
    - exfalso. apply (Hes Idle); [|reflexivity]. now apply list_elem_of_In.
    - intros t. now rewrite handle_Draw.
    - simpl. apply keeps_cb_mouse; reflexivity. }
  cbv beta in K'. repeat split; congruence.
Qed.

(** ** Idle ticks *)

(** A tick outside [PAUSE] is one call of the optimizer followed by
    [update_robots]. *)
Lemma cb_idle_run (s : State) :
  state s <> PAUSE ->
  cb_idle s = (run_chomp cdim nq ;;; update_robots) s.
Proof.
  intros Hs. unfold cb_idle. unfold bind at 1. unfold get at 1.
  destruct (state s); [contradiction | reflexivity | reflexivity].
Qed.

Lemma cb_idle_pause (s : State) : state s = PAUSE -> cb_idle s = (Ok tt, s).
Proof. intros Hs. unfold cb_idle, bind, get. now rewrite Hs. Qed.

Lemma cb_idle_counts (s : State) :
  state s <> PAUSE ->
  calls (chomp (snd (cb_idle s))) = S (calls (chomp s)).
Proof.
  intros Hs. rewrite (cb_idle_run s Hs). unfold bind.
  pose proof (run_chomp_counts_one cdim nq s) as Hc.
  destruct (run_chomp cdim nq s) as [[[]|e] s1]; simpl in Hc |- *; [|exact Hc].
  rewrite (keeps_update_robots (fun s => calls (chomp s))); [exact Hc | reflexivity..].
Qed.

(** X7. When a tick outside [PAUSE] returns, the robots show the trajectory
    the optimizer has just written: the start robot stands at [qs], the goal
    robot at [qe], and there are [nq] waypoint robots, robot [ii] at waypoint
    [ii] of the new [xi].  The tick has written neither the mode, the
    obstacles, the start nor the goal. *)
Theorem idle_tick_shows_new_trajectory (s s' : State) :
  state s <> PAUSE ->
  cb_idle s = (Ok tt, s') ->
  rstart s' = mkRobot (qs s') /\ rend s' = mkRobot (qe s')
  /\ robots s'
     = map (fun ii => mkRobot (take cdim (drop (ii * cdim) (xi s')))) (seq 0 nq)
  /\ length (robots s') = nq
  /\ state s' = state s /\ obs s' = obs s /\ qs s' = qs s /\ qe s' = qe s.
Proof.
  intros Hs E. rewrite (cb_idle_run s Hs) in E. unfold bind in E.
  pose proof (keeps_run_chomp (fun s => (state s, obs s, qs s, qe s)) cdim nq
                ltac:(reflexivity) ltac:(reflexivity) s) as K.
  destruct (run_chomp cdim nq s) as [[[]|e] s1]; [|discriminate].
  cbv beta in K. simpl in K. injection K as Kst Kobs Kqs Kqe.
  destruct (update_robots_returns_only s1) as (H1 & H2 & H3);
    [now rewrite E|].
  rewrite (update_robots_returns s1 H1 H2 H3) in E. injection E as <-.
  split; [reflexivity|]. split; [reflexivity|]. split; [reflexivity|].
  split; [reflexivity|].
  split; [exact Kst|]. split; [exact Kobs|]. split; [exact Kqs | exact Kqe].
Qed.

(** X8. An idle tick never writes the mode.  So once [cb_step] has set the
    mode to [STEP], or a press to [RUN], every tick that follows invokes the
    optimizer once more and leaves the mode as it is: [k] ticks are [k]
    invocations, and [STEP] does not fall back to [PAUSE] after one step. *)
Theorem idle_ticks_keep_the_mode (k : nat) (s : State) :
  state (snd (cb_idle s)) = state s
  /\ state (snd (cb_step s)) = STEP
  /\ state (invocations k cb_idle (snd (cb_step s))) = STEP
  /\ calls (chomp (invocations k cb_idle (snd (cb_step s))))
     = (calls (chomp s) + k)%nat
  /\ (state s <> PAUSE ->
      state (invocations k cb_idle s) = state s
      /\ calls (chomp (invocations k cb_idle s)) = (calls (chomp s) + k)%nat).
Proof.
  assert (Hmode : keeps state cb_idle) by (apply keeps_cb_idle; reflexivity).
  assert (Hrun : forall n t, state t <> PAUSE ->
            state (invocations n cb_idle t) = state t
            /\ calls (chomp (invocations n cb_idle t)) = (calls (chomp t) + n)%nat).
  { induction n as [|n IH]; intros t Ht; simpl.
    - split; [reflexivity | lia].
    - destruct (IH (snd (cb_idle t))) as [IH1 IH2]; [now rewrite Hmode|].
      rewrite IH1, IH2, Hmode, (cb_idle_counts t Ht). split; [reflexivity | lia]. }
  split; [apply Hmode|]. split; [reflexivity|].
  destruct (Hrun k (snd (cb_step s))) as [H1 H2]; [simpl; discriminate|].
  split; [exact H1|]. split; [exact H2|]. apply Hrun.
Qed.

(** ** Runs of mouse events *)

Lemma paused_release_changes_nothing (s : State) :
  state s = PAUSE -> grabbed s = to_size_t (-1) ->
  set_state PAUSE (set_grabbed (to_size_t (-1)) s) = s.
Proof. destruct s. simpl. intros -> ->. reflexivity. Qed.

Lemma quiet_event_run (e : Event) (s : State) :
  grab_invariant s -> state s = PAUSE -> grabbed s = to_size_t (-1) ->
  quiet_event s e -> handle e s = (Ok tt, s).
Proof.
  intros Hinv Hp Hg Hq. destruct e as [| |px py flags]; simpl.
  - now apply cb_idle_pause.
  - destruct Hq as [drawn Hd].
    pose proof (keeps_cb_draw (fun t => t) s) as K. unfold bind.
    destruct (cb_draw s) as [o t]. simpl in *. now subst.
  - destruct Hq as [Ha Hl].
    destruct (cb_mouse_cases px py flags s Hinv)
      as [[Ha' _] | [(Hpr & ii & c & Hh & _) | [(_ & _ & E) | [[_ E] | [[_ E]
         | (_ & _ & _ & _ & E)]]]]]; try exact E.
    + congruence.
    + rewrite (Hl Hpr) in Hh. discriminate.
    + rewrite E. now apply drag_sentinel.
    + rewrite E. now rewrite paused_release_changes_nothing.
Qed.

(** X9. While the program is paused with nothing grabbed, only two events
    change anything: a release of button 3, which appends an obstacle, and a
    press within an obstacle.  Every other event (an idle tick, a redraw
    that returns, a press beside all obstacles, a drag, a release, a move)
    returns and leaves the whole state as it is, and so does any run of such
    events. *)
Theorem paused_state_is_quiet (es : list Event) (s : State) :
  grab_invariant s -> state s = PAUSE -> grabbed s = to_size_t (-1) ->
  Forall (quiet_event s) es ->
  event_loop es s = (Ok tt, s).
Proof.
  intros Hinv Hp Hg Hq. induction Hq as [|e rest He _ IH]; [reflexivity|].
  simpl. unfold bind. rewrite (quiet_event_run e s Hinv Hp Hg He). exact IH.
Qed.

Lemma to_size_t_small (ii : nat) :
  Z.of_nat ii < 2 ^ 64 - 1 ->
  to_size_t (Z.of_nat ii) = Z.of_nat ii
  /\ to_size_t (Z.of_nat ii) <> to_size_t (-1).
Proof.
  intros H. unfold to_size_t.
  rewrite (Z.mod_small (Z.of_nat ii)) by lia.
  split; [reflexivity|]. change ((-1) mod 2 ^ 64) with (2 ^ 64 - 1). lia.
Qed.

(** The mode follows the grab: paused with nothing grabbed, or running with
    an obstacle grabbed. *)
Lemma mode_follows_grab (es : list Event) (s0 : State) : forall s,
  grab_invariant s0 -> state s0 = PAUSE -> grabbed s0 = to_size_t (-1) ->
  event_loop es s0 = (Ok tt, s) ->
  Z.of_nat (cols (obs s)) < 2 ^ 64 ->
  (state s = PAUSE /\ grabbed s = to_size_t (-1))
  \/ (state s = RUN /\ grabbed s <> to_size_t (-1)).
Proof.
  induction es as [|e es IH] using rev_ind; intros s Hinv0 Hp0 Hg0 E Hb.
  - simpl in E. unfold ret in E. injection E as <-. now left.
  - apply event_loop_snoc in E. destruct E as (s1 & E1 & Ee).
    pose proof (event_loop_reaches_invariant es s0 s1 Hinv0 E1) as Hinv1.
    destruct (handle_invariant e s1 Hinv1) as (_ & Hmono & _).
    rewrite Ee in Hmono. simpl in Hmono.
    specialize (IH s1 Hinv0 Hp0 Hg0 E1 ltac:(lia)).
    destruct e as [| |px py flags]; simpl in Ee.
    + pose proof (keeps_cb_idle (fun s => (state s, grabbed s))
                    ltac:(reflexivity) ltac:(reflexivity) ltac:(reflexivity)
                    ltac:(reflexivity) ltac:(reflexivity) s1) as K.
      rewrite Ee in K. cbv beta in K. simpl in K. injection K as -> ->.
      exact IH.
    + apply handle_Draw_returns in Ee. subst s. exact IH.
    + destruct (cb_mouse_cases px py flags s1 Hinv1)
        as [[_ E] | [(_ & ii & c & Hl & E) | [(_ & _ & E) | [[_ E] | [[_ E]
           | (_ & _ & _ & _ & E)]]]]]; rewrite E in Ee.
      * injection Ee as <-. exact IH.
      * injection Ee as <-. right. simpl. split; [reflexivity|].
        destruct (lowest_hit_Some _ _ _ _ _ Hl) as (_ & _ & _ & Hlt & _).
        apply to_size_t_small. lia.
      * injection Ee as <-. exact IH.
      * destruct (drag_frame px py s1 Hinv1) as (s' & E' & Hs' & _).
        rewrite E' in Ee. injection Ee as <-.
        rewrite Hs'. simpl. exact IH.
      * injection Ee as <-. now left.
      * injection Ee as <-. exact IH.
Qed.

(** X10. In a run that starts paused with nothing grabbed, the mode follows
    the grab: the program is in [PAUSE] with nothing grabbed or in [RUN] with
    an obstacle grabbed, never in [STEP].  So an idle tick invokes the
    optimizer exactly while an obstacle is held.  (The number of obstacles is
    below [2^64], as every number of columns of an Eigen matrix is.) *)
Theorem optimizer_runs_while_grabbed (es : list Event) (s0 s : State) :
  grab_invariant s0 -> state s0 = PAUSE -> grabbed s0 = to_size_t (-1) ->
  event_loop es s0 = (Ok tt, s) ->
  Z.of_nat (cols (obs s)) < 2 ^ 64 ->
  ((state s = PAUSE /\ grabbed s = to_size_t (-1))
   \/ (state s = RUN /\ grabbed s <> to_size_t (-1)))
  /\ (grabbed s = to_size_t (-1) -> cb_idle s = (Ok tt, s))
  /\ (grabbed s <> to_size_t (-1) ->
      cb_idle s = (run_chomp cdim nq ;;; update_robots) s
      /\ calls (chomp (snd (cb_idle s))) = S (calls (chomp s))).
Proof.
  intros Hinv0 Hp0 Hg0 E Hb.
  pose proof (mode_follows_grab es s0 s Hinv0 Hp0 Hg0 E Hb) as Hmode.
  split; [exact Hmode|]. split.
  - intros Hg. destruct Hmode as [[Hp _] | [_ Hn]]; [|contradiction].
    now apply cb_idle_pause.
  - intros Hg. destruct Hmode as [[_ Hn] | [Hr _]]; [contradiction|].
    assert (Hs : state s <> PAUSE) by (rewrite Hr; discriminate).
    split; [now apply cb_idle_run | now apply cb_idle_counts].
Qed.

Lemma count_appends_cons (e : Event) (es : list Event) :
  count_appends (e :: es)
  = ((if appends e then 1 else 0) + count_appends es)%nat.
Proof.
  unfold count_appends. rewrite filter_cons.
  destruct (decide (appends e = true)) as [->|Hn]; [reflexivity|].
  destruct (appends e); [contradiction | reflexivity].
Qed.

(** X11. Obstacles are counted by the releases of button 3: after a run of
    the event loop that returns, the matrix has as many columns as before
    the run plus one for every event that took the appending branch; no
    obstacle is ever removed. *)
Theorem obstacle_count_after_run (es : list Event) (s0 s : State) :
  grab_invariant s0 ->
  event_loop es s0 = (Ok tt, s) ->
  cols (obs s) = (cols (obs s0) + count_appends es)%nat.
Proof.
  revert s0. induction es as [|e rest IH]; intros s0 Hinv E.
  - simpl in E. unfold ret in E. injection E as <-.
    unfold count_appends. simpl. lia.
  - simpl in E. unfold bind in E.
    destruct (handle_invariant e s0 Hinv) as (Hinv1 & _).
    destruct (handle e s0) as [[[]|err] s1] eqn:Ee; [|discriminate].
    simpl in Hinv1. rewrite (IH s1 Hinv1 E), count_appends_cons.
    assert (Hstep : cols (obs s1)
                    = (cols (obs s0) + if appends e then 1 else 0)%nat);
      [|lia].
    destruct e as [| |px py flags]; simpl in Ee |- *.
    + destruct (cb_idle_grab_frame s0) as (Ho & _).
      rewrite Ee in Ho. simpl in Ho. rewrite Ho. lia.
    + apply handle_Draw_returns in Ee. subst s1. lia.
    + destruct (cb_mouse_cases px py flags s0 Hinv)
        as [[Ha E'] | [(Hp & ii & c & _ & E') | [(Hp & _ & E') | [[Hd E']
           | [[Hr E'] | (Ha & _ & _ & _ & E')]]]]]; rewrite E' in Ee.
      * injection Ee as <-. rewrite Ha. unfold cols. simpl.
        rewrite length_app. simpl. lia.
      * injection Ee as <-.
        unfold is_press in Hp. apply andb_prop in Hp as [Ha _].
        apply negb_true_iff in Ha. rewrite Ha. simpl. lia.
      * injection Ee as <-.
        unfold is_press in Hp. apply andb_prop in Hp as [Ha _].
        apply negb_true_iff in Ha. rewrite Ha. lia.
      * destruct (drag_frame px py s0 Hinv) as (s' & Ed & _ & Hc & _).
        rewrite Ed in Ee. injection Ee as <-.
        unfold is_drag in Hd. apply andb_prop in Hd as [Hd _].
        apply andb_prop in Hd as [Ha _].
        apply negb_true_iff in Ha. rewrite Ha, Hc. lia.
      * injection Ee as <-.
        unfold is_plain_release in Hr. apply andb_prop in Hr as [Hr _].
        apply andb_prop in Hr as [Hr _]. apply andb_prop in Hr as [Ha _].
        apply negb_true_iff in Ha. rewrite Ha. simpl. lia.
      * injection Ee as <-. rewrite Ha. lia.
Qed.

(** X12. A press within an obstacle followed by a drag: the press grabs the
    lowest obstacle [ii] that contains the pointer [(px, py)], and the drag
    to [(qx, qy)] puts its centre at [(qx + (x - px), qy + (y - py))], the
    sums and differences being those of doubles; its radius and all other
    obstacles are as before the press, and the program is in [RUN] with
    [ii] grabbed. *)
Theorem press_then_drag (px py qx qy : float) (fl1 fl2 : Z) (s : State)
    (ii : nat) (c : list float) :
  grab_invariant s ->
  Z.of_nat (cols (obs s)) < 2 ^ 64 ->
  is_press fl1 = true -> is_drag fl2 = true ->
  lowest_hit px py (obs s) = Some (ii, c) ->
  exists x y r s1 s2,
    c = [x; y; r]
    /\ cb_mouse px py fl1 s = (Ok tt, s1)
    /\ cb_mouse qx qy fl2 s1 = (Ok tt, s2)
    /\ column ii (obs s2)
       = Some [PrimFloat.add qx (PrimFloat.sub x px);
               PrimFloat.add qy (PrimFloat.sub y py); r]
    /\ (forall j, j <> ii -> column j (obs s2) = column j (obs s))
    /\ state s2 = RUN /\ grabbed s2 = Z.of_nat ii.
Proof.
  intros Hinv Hb Hp Hd Hl. pose proof Hinv as (Hm & _ & _).
  destruct (lowest_hit_Some _ _ _ _ _ Hl) as (Hc & _ & _ & Hlt & _).
  destruct (obstacle_matrix_column _ _ _ Hm Hc) as (_ & x & y & r & ->).
  destruct (to_size_t_small ii ltac:(lia)) as [Hsmall Hne].
  set (s1 := set_state RUN
               (set_grabbed (to_size_t (Z.of_nat ii))
                  (set_grab_offset (pointer_offset px py [x; y; r]) s))).
  assert (E1 : cb_mouse px py fl1 s = (Ok tt, s1)).
  { rewrite (cb_mouse_press px py fl1 s Hp), (press_loop px py s Hm), Hl.
    reflexivity. }
  assert (Hinv1 : grab_invariant s1).
  { split; [exact Hm|]. split; [simpl; lia|]. right. simpl. lia. }
  destruct (drag_frame qx qy s1 Hinv1)
    as (s2 & E2 & Hs2 & _ & _ & _ & _ & Hother & _ & Hmoved).
  destruct (Hmoved Hne) as (x' & y' & r' & go0 & go1 & rest & Hc' & Hgo & Hnew).
  simpl in Hc', Hgo, Hnew. rewrite Hsmall, Nat2Z.id in Hc', Hnew.
  rewrite Hc in Hc'. injection Hc' as <- <- <-.
  injection Hgo as <- <- <-.
  exists x, y, r, s1, s2. split; [reflexivity|]. split; [exact E1|].
  split; [now rewrite (cb_mouse_drag qx qy fl2 s1 Hd)|].
  split; [exact Hnew|]. split.
  { intros j Hj. rewrite Hother; [reflexivity|]. simpl. rewrite Hsmall. lia. }
  rewrite Hs2. simpl. split; [reflexivity | exact Hsmall].
Qed.

(** X13. A release of button 3 does not end a grab: whatever the state, it
    appends its obstacle and leaves the mode, [grabbed] and [grab_offset] as
    they are, so that the next drag still moves the obstacle that was
    grabbed before. *)
Theorem right_release_keeps_the_grab (px py qx qy : float) (fl1 fl2 : Z)
    (s : State) :
  adds_obstacle fl1 = true ->
  exists m,
    cb_mouse px py fl1 s = (Ok tt, set_obs m s)
    /\ cols m = S (cols (obs s))
    /\ (grab_invariant s -> grabbed s <> to_size_t (-1) -> is_drag fl2 = true ->
        exists x y r go0 go1 rest s2,
          column (Z.to_nat (grabbed s)) (obs s) = Some [x; y; r]
          /\ grab_offset s = go0 :: go1 :: rest
          /\ cb_mouse qx qy fl2 (set_obs m s) = (Ok tt, s2)
          /\ column (Z.to_nat (grabbed s)) (obs s2)
             = Some [PrimFloat.add qx go0; PrimFloat.add qy go1; r]
          /\ cols (obs s2) = S (cols (obs s))).
Proof.
  intros Ha. eexists. split; [rewrite (cb_mouse_add px py fl1 s Ha); apply add_obs_run|].
  split; [unfold cols; simpl; rewrite length_app, length_map; simpl; lia|].
  intros Hinv Hg Hd. pose proof Hinv as (Hm & Hgo & Hgr).
  assert (Ecols : map (resize_column obs_dim) (mcolumns (obs s)) = mcolumns (obs s)).
  { destruct Hm as [Hwf [Hnil | Hr]]; [now rewrite Hnil|].
    unfold wf_matrix in Hwf. rewrite Hr in Hwf.
    induction Hwf as [|c0 cs Hc0 _ IH]; simpl; [reflexivity|].
    now rewrite resize_column_id, IH. }
  rewrite Ecols.
  set (s1 := set_obs (mkMatrix obs_dim (mcolumns (obs s) ++ [[px; py; 2%float]])) s).
  assert (Hinv1 : grab_invariant s1).
  { split; [apply obstacle_matrix_snoc; [exact Hm | reflexivity]|].
    split; [exact Hgo|]. simpl. unfold cols in *. simpl.
    rewrite length_app. simpl. lia. }
  destruct (drag_frame qx qy s1 Hinv1)
    as (s2 & E2 & _ & Hc2 & _ & _ & _ & _ & _ & Hmoved).
  destruct (Hmoved Hg) as (x & y & r & go0 & go1 & rest & Hc & Hoff & Hnew).
  exists x, y, r, go0, go1, rest, s2.
  assert (Hlt : (Z.to_nat (grabbed s) < length (mcolumns (obs s)))%nat)
    by (destruct Hgr as [Hgr|Hgr]; [contradiction | unfold cols in Hgr; lia]).
  split.
  { unfold column in Hc |- *. simpl in Hc. now rewrite lookup_app_l in Hc. }
  split; [exact Hoff|].
  split; [now rewrite (cb_mouse_drag qx qy fl2 s1 Hd)|].
  split; [exact Hnew|].
  rewrite Hc2. unfold cols. simpl. rewrite length_app. simpl. lia.
Qed.

(** ** The order of doubles *)

Lemma SFcompare_Lt_trans (a b c : spec_float) :
  SFcompare a b = Some Lt -> SFcompare b c = Some Lt ->
  SFcompare a c = Some Lt.
Proof.
  destruct a as [sa|sa| |sa ma ea], b as [sb|sb| |sb mb eb],
           c as [sc|sc| |sc mc ec];
    simpl; try discriminate;
    try (destruct sa, sb, sc; simpl; congruence).
  destruct sa, sb, sc; simpl; intros H1 H2; try congruence;
    destruct (Z.compare_spec ea eb), (Z.compare_spec eb ec),
             (Z.compare_spec ea ec);
    try congruence; try lia; subst;
    rewrite ?Pos.compare_cont_spec in *; unfold Pos.switch_Eq in *;
    destruct (Pos.compare_spec ma mb), (Pos.compare_spec mb mc),
             (Pos.compare_spec ma mc);
    simpl in *; try congruence; try lia.
Qed.

Lemma SFcompare_refl_not_Lt (a : spec_float) : SFcompare a a <> Some Lt.
Proof.
  destruct a as [s|s| |s m e]; simpl; try discriminate.
  - destruct s; discriminate.
  - destruct s; rewrite Z.compare_refl, Pos.compare_cont_refl; discriminate.
Qed.

(** [x < x] is false for every double, also for a NaN. *)
Lemma ltb_irrefl (x : float) : PrimFloat.ltb x x = false.
Proof.
  rewrite ltb_spec. unfold SFltb.
  pose proof (SFcompare_refl_not_Lt (Prim2SF x)) as H.
  destruct (SFcompare (Prim2SF x) (Prim2SF x)) as [[| |]|];
    try reflexivity. now contradiction H.
Qed.

Lemma ltb_trans (x y z : float) :
  PrimFloat.ltb x y = true -> PrimFloat.ltb y z = true ->
  PrimFloat.ltb x z = true.
Proof.
  rewrite !ltb_spec. unfold SFltb. intros Hxy Hyz.
  assert (H1 : SFcompare (Prim2SF x) (Prim2SF y) = Some Lt)
    by (destruct (SFcompare (Prim2SF x) (Prim2SF y)) as [[| |]|];
        try discriminate; reflexivity).
  assert (H2 : SFcompare (Prim2SF y) (Prim2SF z) = Some Lt)
    by (destruct (SFcompare (Prim2SF y) (Prim2SF z)) as [[| |]|];
        try discriminate; reflexivity).
  now rewrite (SFcompare_Lt_trans _ _ _ H1 H2).
Qed.

(** A value that is not below [lo] is not below anything below [lo]
    either, and likewise above. *)
Lemma not_below_lower (v x lo : float) :
  PrimFloat.ltb v lo = false -> PrimFloat.ltb x lo = true ->
  PrimFloat.ltb v x = false.
Proof.
  intros Hv Hx. destruct (PrimFloat.ltb v x) eqn:E; [|reflexivity].
  now rewrite (ltb_trans v x lo E Hx) in Hv.
Qed.

Lemma not_above_higher (v x hi : float) :
  PrimFloat.ltb hi v = false -> PrimFloat.ltb hi x = true ->
  PrimFloat.ltb x v = false.
Proof.
  intros Hv Hx. destruct (PrimFloat.ltb x v) eqn:E; [|reflexivity].
  now rewrite (ltb_trans hi x v Hx E) in Hv.
Qed.

(** ** The bounds of the view *)

(** One widening step: it needs the coordinate and the two bounds of the
    axis to be in range; the bounds then cover the coordinate and all they
    covered before, and keep their lengths. *)
Lemma widen_covers (x : float) (ii : nat) (bb bb' : Vector * Vector) :
  widen (Some x) ii bb = Some bb' ->
  covers ii x bb'
  /\ (forall k v, covers k v bb -> covers k v bb')
  /\ length (fst bb') = length (fst bb) /\ length (snd bb') = length (snd bb).
Proof.
  destruct bb as [bmin bmax].
  unfold covers, widen, lower_to, raise_to, Vector in *. simpl.
  destruct (bmin !! ii) as [lo|] eqn:Elo; [|discriminate].
  destruct (bmax !! ii) as [hi|] eqn:Ehi; [|discriminate].
  simpl. intros [= <-]. simpl.
  pose proof (lookup_lt_Some _ _ _ Elo) as Hlo.
  pose proof (lookup_lt_Some _ _ _ Ehi) as Hhi.
  assert (Hmin : exists lo', (if PrimFloat.ltb x lo then <[ii := x]> bmin else bmin)
                               !! ii = Some lo'
                 /\ PrimFloat.ltb x lo' = false
                 /\ (forall v, PrimFloat.ltb v lo = false ->
                               PrimFloat.ltb v lo' = false)).
  { destruct (PrimFloat.ltb x lo) eqn:E.
    - exists x. cbv iota. rewrite list_lookup_insert_eq by exact Hlo.
      split; [reflexivity|]. split; [apply ltb_irrefl|].
      intros v Hv. exact (not_below_lower v x lo Hv E).
    - exists lo. auto. }
  assert (Hmax : exists hi', (if PrimFloat.ltb hi x then <[ii := x]> bmax else bmax)
                               !! ii = Some hi'
                 /\ PrimFloat.ltb hi' x = false
                 /\ (forall v, PrimFloat.ltb hi v = false ->
                               PrimFloat.ltb hi' v = false)).
  { destruct (PrimFloat.ltb hi x) eqn:E.
    - exists x. cbv iota. rewrite list_lookup_insert_eq by exact Hhi.
      split; [reflexivity|]. split; [apply ltb_irrefl|].
      intros v Hv. exact (not_above_higher v x hi Hv E).
    - exists hi. auto. }
  destruct Hmin as (lo' & Hl1 & Hl2 & Hl3), Hmax as (hi' & Hh1 & Hh2 & Hh3).
  split; [exists lo', hi'; auto|]. split.
  - intros k v (lk & hk & Hk1 & Hk2 & Hk3 & Hk4). simpl in Hk1, Hk2.
    unfold Vector in *.
    destruct (decide (k = ii)) as [->|Hne].
    + rewrite Elo in Hk1. rewrite Ehi in Hk2.
      injection Hk1 as <-. injection Hk2 as <-.
      exists lo', hi'. simpl. auto.
    + exists lk, hk. simpl. split; [|split; [|auto]].
      * destruct (PrimFloat.ltb x lo); [|exact Hk1].
        now rewrite list_lookup_insert_ne by congruence.
      * destruct (PrimFloat.ltb hi x); [|exact Hk2].
        now rewrite list_lookup_insert_ne by congruence.
  - split; [destruct (PrimFloat.ltb x lo) | destruct (PrimFloat.ltb hi x)];
      rewrite ?length_insert; reflexivity.
Qed.

Lemma widen_None (ii : nat) (bb : Vector * Vector) : widen None ii bb = None.
Proof. reflexivity. Qed.

(** One widening step goes through when everything it reads is in range. *)
Lemma widen_in_range (x : float) (ii : nat) (bb : Vector * Vector) :
  (ii < length (fst bb))%nat -> (ii < length (snd bb))%nat ->
  is_Some (widen (Some x) ii bb).
Proof.
  intros H1 H2. unfold widen, lower_to, raise_to. simpl.
  destruct (fst bb !! ii) as [lo|] eqn:Elo;
    [|apply lookup_ge_None in Elo; lia].
  destruct (snd bb !! ii) as [hi|] eqn:Ehi;
    [|apply lookup_ge_None in Ehi; lia].
  simpl. eauto.
Qed.

Lemma widen_waypoints_cons (x : Vector) (ii jj : nat) (rest : list nat)
    (bb : Vector * Vector) :
  widen_waypoints x ii (jj :: rest) bb
  = match widen (x !! (ii + cdim * jj)%nat) ii bb with
    | Some bb' => widen_waypoints x ii rest bb'
    | None => None
    end.
Proof. reflexivity. Qed.

Lemma view_axes_cons (s : State) (ii : nat) (rest : list nat)
    (bb : Vector * Vector) :
  view_axes s (ii :: rest) bb
  = match widen (qe s !! ii) ii bb with
    | Some bb1 =>
        match widen_waypoints (xi s) ii (seq 0 nq) bb1 with
        | Some bb2 => view_axes s rest bb2
        | None => None
        end
    | None => None
    end.
Proof. reflexivity. Qed.

Lemma widen_waypoints_covers (x : Vector) (ii : nat) (jjs : list nat) :
  forall bb bb' : Vector * Vector,
  widen_waypoints x ii jjs bb = Some bb' ->
  (forall jj, In jj jjs ->
     exists v, x !! (ii + cdim * jj)%nat = Some v /\ covers ii v bb')
  /\ (forall k v, covers k v bb -> covers k v bb')
  /\ length (fst bb') = length (fst bb) /\ length (snd bb') = length (snd bb).
Proof.
  induction jjs as [|jj rest IH]; intros bb bb' E.
  - simpl in E. injection E as <-. split; [intros jj []|]. auto.
  - rewrite widen_waypoints_cons in E.
    destruct (x !! (ii + cdim * jj)%nat) as [v|] eqn:Ev;
      [|rewrite widen_None in E; discriminate].
    destruct (widen (Some v) ii bb) as [bb1|] eqn:E1; [|discriminate].
    destruct (widen_covers v ii bb bb1 E1) as (Hv & Hkeep1 & Hl1 & Hl2).
    destruct (IH bb1 bb' E) as (Hrest & Hkeep & Hl3 & Hl4).
    split; [|split; [|split; congruence]].
    + intros jj' [<- | Hin]; [|now apply Hrest].
      exists v. split; [exact Ev | now apply Hkeep].
    + intros k w Hw. apply Hkeep. now apply Hkeep1.
Qed.

Lemma widen_waypoints_in_range (x : Vector) (ii : nat) (jjs : list nat) :
  forall bb : Vector * Vector,
  (forall jj, In jj jjs -> (ii + cdim * jj < length x)%nat) ->
  (ii < length (fst bb))%nat -> (ii < length (snd bb))%nat ->
  is_Some (widen_waypoints x ii jjs bb).
Proof.
  induction jjs as [|jj rest IH]; intros bb Hx H1 H2; [simpl; eauto|].
  rewrite widen_waypoints_cons.
  destruct (x !! (ii + cdim * jj)%nat) as [v|] eqn:Ev;
    [|apply lookup_ge_None in Ev; specialize (Hx jj ltac:(now left)); lia].
  destruct (widen_in_range v ii bb H1 H2) as [bb1 E1].
  rewrite E1.
  destruct (widen_covers v ii bb bb1 E1) as (_ & _ & Hl1 & Hl2).
  apply IH; [intros jj' Hin; apply Hx; now right
            | now rewrite Hl1 | now rewrite Hl2].
Qed.

Lemma view_axes_covers (s : State) (iis : list nat) :
  forall bb bb' : Vector * Vector,
  view_axes s iis bb = Some bb' ->
  (forall ii, In ii iis ->
     (exists v, qe s !! ii = Some v /\ covers ii v bb')
     /\ forall jj, (jj < nq)%nat ->
          exists v, xi s !! (ii + cdim * jj)%nat = Some v /\ covers ii v bb')
  /\ (forall k v, covers k v bb -> covers k v bb')
  /\ length (fst bb') = length (fst bb) /\ length (snd bb') = length (snd bb).
Proof.
  induction iis as [|ii rest IH]; intros bb bb' E.
  - simpl in E. injection E as <-. split; [intros ii []|]. auto.
  - rewrite view_axes_cons in E.
    destruct (qe s !! ii) as [v|] eqn:Ev;
      [|rewrite widen_None in E; discriminate].
    destruct (widen (Some v) ii bb) as [bb1|] eqn:E1; [|discriminate].
    destruct (widen_waypoints (xi s) ii (seq 0 nq) bb1) as [bb2|] eqn:E2;
      [|discriminate].
    destruct (widen_covers v ii bb bb1 E1) as (Hv & Hkeep1 & Hl1 & Hl2).
    destruct (widen_waypoints_covers _ _ _ _ _ E2) as (Hw & Hkeep2 & Hl3 & Hl4).
    destruct (IH bb2 bb' E) as (Hrest & Hkeep & Hl5 & Hl6).
    split; [|split; [|split; congruence]].
    + intros ii' [<- | Hin]; [|now apply Hrest].
      split.
      * exists v. split; [exact Ev|]. apply Hkeep. now apply Hkeep2.
      * intros jj Hjj. destruct (Hw jj) as (w & Ew & Hcw).
        { apply in_seq. lia. }
        exists w. split; [exact Ew | now apply Hkeep].
    + intros k w Hcw. apply Hkeep, Hkeep2, Hkeep1, Hcw.
Qed.

Lemma view_axes_in_range (s : State) (iis : list nat) :
  forall bb : Vector * Vector,
  (forall ii, In ii iis ->
     (ii < length (qe s))%nat /\ (ii < length (fst bb))%nat
     /\ (ii < length (snd bb))%nat
     /\ forall jj, (jj < nq)%nat -> (ii + cdim * jj < length (xi s))%nat) ->
  is_Some (view_axes s iis bb).
Proof.
  induction iis as [|ii rest IH]; intros bb H; [simpl; eauto|].
  rewrite view_axes_cons.
  destruct (H ii ltac:(now left)) as (Hq & H1 & H2 & Hx).
  destruct (qe s !! ii) as [v|] eqn:Ev;
    [|apply lookup_ge_None in Ev; lia].
  destruct (widen_in_range v ii bb H1 H2) as [bb1 E1]. rewrite E1.
  destruct (widen_covers v ii bb bb1 E1) as (_ & _ & Hl1 & Hl2).
  destruct (widen_waypoints_in_range (xi s) ii (seq 0 nq) bb1) as [bb2 E2];
    [intros jj Hin; apply Hx; apply in_seq in Hin; lia | lia | lia |].
  rewrite E2.
  destruct (widen_waypoints_covers _ _ _ _ _ E2) as (_ & _ & Hl3 & Hl4).
  apply IH. intros ii' Hin.
  destruct (H ii' ltac:(now right)) as (Hq' & H1' & H2' & Hx').
  repeat split; try assumption; lia.
Qed.

(** X15. The view that [cb_draw] sets contains everything it draws from the
    trajectory: when the bounds are computed, then on each of the two axes
    the start, the goal and each of the [nq] waypoints are in range, and
    none of these coordinates compares below the lower bound or above the
    upper bound (a NaN compares neither way, so a NaN coordinate constrains
    nothing).  The bounds have the size of [qs]. *)
Theorem view_bounds_cover_trajectory (s : State) (bmin bmax : Vector) :
  view_bounds s = Some (bmin, bmax) ->
  length bmin = length (qs s) /\ length bmax = length (qs s)
  /\ forall ii, (ii < 2)%nat ->
       (exists v, qs s !! ii = Some v /\ covers ii v (bmin, bmax))
       /\ (exists v, qe s !! ii = Some v /\ covers ii v (bmin, bmax))
       /\ forall jj, (jj < nq)%nat ->
            exists v, xi s !! (ii + cdim * jj)%nat = Some v
                      /\ covers ii v (bmin, bmax).
Proof.
  intros E. unfold view_bounds in E.
  destruct (view_axes_covers s (seq 0 2) (qs s, qs s) (bmin, bmax) E)
    as (Haxes & Hkeep & Hl1 & Hl2).
  simpl in Hl1, Hl2. split; [exact Hl1|]. split; [exact Hl2|].
  intros ii Hii. destruct (Haxes ii) as ((v & Ev & Hv) & Hw).
  { apply in_seq. lia. }
  split; [|split; [eauto | exact Hw]].
  destruct Hv as (lo & hi & Hlo & _). simpl in Hlo.
  destruct (lookup_lt_is_Some_2 (qs s) ii) as [q Eq].
  { rewrite <- Hl1. eapply lookup_lt_Some. exact Hlo. }
  exists q. split; [exact Eq|]. apply Hkeep.
  exists q, q. simpl. repeat split; try exact Eq; apply ltb_irrefl.
Qed.

(** ** What [cb_draw] draws *)

Lemma mapM_total {A B} (f : A -> option B) (l : list A) :
  (forall x, In x l -> is_Some (f x)) ->
  exists k, mapM f l = Some k /\ length k = length l
            /\ Forall2 (fun x y => f x = Some y) l k.
Proof.
  intros H.
  destruct (mapM_is_Some_2 f l) as [k Hk].
  { apply Forall_forall. intros x Hx. apply H. now apply list_elem_of_In. }
  exists k. split; [exact Hk|].
  apply mapM_Some_1 in Hk. split; [|exact Hk].
  symmetry. eapply Forall2_length. exact Hk.
Qed.

Lemma length_concat_const {B} (c : nat) (ks : list (list B)) :
  Forall (fun k => length k = c) ks -> length (concat ks) = (c * length ks)%nat.
Proof.
  induction 1 as [|k ks Hk _ IH]; simpl; [lia|].
  rewrite length_app, IH, Hk. lia.
Qed.

Lemma Forall2_Some_lengths {A B} (f : A -> option (list B)) (c : nat)
    (l : list A) (ks : list (list B)) :
  (forall x k, In x l -> f x = Some k -> length k = c) ->
  Forall2 (fun x y => f x = Some y) l ks ->
  Forall (fun k => length k = c) ks.
Proof.
  intros H Hall. induction Hall as [|x k l' ks' Hk _ IH]; constructor.
  - apply (H x k); [now left | exact Hk].
  - apply IH. intros x' k' Hin. apply H. now right.
Qed.

Lemma Robot_draw_length (r : Robot) (w : list GfxCmd) :
  Robot_draw r = Some w -> length w = 4%nat.
Proof.
  unfold Robot_draw.
  destruct (position_ r !! 0%nat); [|discriminate].
  destruct (position_ r !! 1%nat); [|discriminate].
  simpl. now intros [= <-].
Qed.

Lemma draw_robots_total (rs : list Robot) :
  Forall two_components rs ->
  exists ws, mapM Robot_draw rs = Some ws
             /\ length (concat ws) = (4 * length rs)%nat.
Proof.
  intros H.
  destruct (mapM_total Robot_draw rs) as (ws & E & Hlen & Hall).
  { intros r Hr. apply Robot_draw_two_components.
    rewrite Forall_forall in H. apply H. now apply list_elem_of_In. }
  exists ws. split; [exact E|]. rewrite <- Hlen.
  apply length_concat_const.
  apply (Forall2_Some_lengths Robot_draw 4 rs ws); [|exact Hall].
  intros r w _. apply Robot_draw_length.
Qed.

Lemma draw_handles_total (m : Matrix) :
  obstacle_matrix m ->
  exists hs, mapM (draw_handle m) (seq 0 (cols m)) = Some hs
             /\ length (concat hs) = (2 * cols m)%nat.
Proof.
  intros Hm.
  assert (Hone : forall ii, In ii (seq 0 (cols m)) ->
            exists h, draw_handle m ii = Some h /\ length h = 2%nat).
  { intros ii Hin. apply in_seq in Hin.
    destruct (lookup_lt_is_Some_2 (mcolumns m) ii) as [c Hc];
      [unfold cols in Hin; lia|].
    destruct (obstacle_matrix_column m ii c Hm Hc) as (Hr & x & y & r & ->).
    unfold draw_handle, coeff. rewrite Hr, Hc. simpl. eauto. }
  destruct (mapM_total (draw_handle m) (seq 0 (cols m))) as (hs & E & Hlen & Hall).
  { intros ii Hin. destruct (Hone ii Hin) as (h & -> & _). eauto. }
  exists hs. split; [exact E|].
  rewrite length_seq in Hlen. rewrite <- Hlen.
  apply length_concat_const.
  apply (Forall2_Some_lengths (draw_handle m) 2 (seq 0 (cols m)) hs);
    [|exact Hall].
  intros ii h Hin Eh. destruct (Hone ii Hin) as (h' & Eh' & Hl). congruence.
Qed.

Lemma draw_trajectory_total (s : State) :
  (2 <= length (qs s))%nat -> (2 <= length (qe s))%nat ->
  (nq * cdim <= length (xi s))%nat ->
  exists trj, draw_trajectory s = Some trj
              /\ length trj = (2 * nq + 7)%nat.
Proof.
  intros Hs He Hx. unfold nq, cdim in Hx.
  destruct (mapM_total (draw_segment (xi s)) (seq 1 (nq - 1)))
    as (segs & Esegs & Lsegs & _).
  { intros ii Hin. apply in_seq in Hin. unfold nq in Hin.
    unfold draw_segment, cdim.
    destruct (xi s !! ((ii - 1) * 2)%nat) eqn:E1;
      [|apply lookup_ge_None in E1; lia].
    destruct (xi s !! ((ii - 1) * 2 + 1)%nat) eqn:E2;
      [|apply lookup_ge_None in E2; lia].
    destruct (xi s !! (ii * 2)%nat) eqn:E3;
      [|apply lookup_ge_None in E3; lia].
    destruct (xi s !! (ii * 2 + 1)%nat) eqn:E4;
      [|apply lookup_ge_None in E4; lia].
    simpl. eauto. }
  destruct (mapM_total (draw_waypoint (xi s)) (seq 0 nq))
    as (pts & Epts & Lpts & _).
  { intros ii Hin. apply in_seq in Hin. unfold nq in Hin.
    unfold draw_waypoint, cdim.
    destruct (xi s !! (ii * 2)%nat) eqn:E3;
      [|apply lookup_ge_None in E3; lia].
    destruct (xi s !! (ii * 2 + 1)%nat) eqn:E4;
      [|apply lookup_ge_None in E4; lia].
    simpl. eauto. }
  unfold draw_trajectory. rewrite Esegs, Epts.
  destruct (qs s !! 0%nat) eqn:E1; [|apply lookup_ge_None in E1; lia].
  destruct (qs s !! 1%nat) eqn:E2; [|apply lookup_ge_None in E2; lia].
  destruct (xi s !! 0%nat) eqn:E3; [|apply lookup_ge_None in E3; lia].
  destruct (xi s !! 1%nat) eqn:E4; [|apply lookup_ge_None in E4; lia].
  destruct (xi s !! ((nq - 1) * cdim)%nat) eqn:E5;
    [|apply lookup_ge_None in E5; unfold nq, cdim in E5; simpl in E5; lia].
  destruct (xi s !! ((nq - 1) * cdim + 1)%nat) eqn:E6;
    [|apply lookup_ge_None in E6; unfold nq, cdim in E6; simpl in E6; lia].
  destruct (qe s !! 0%nat) eqn:E7; [|apply lookup_ge_None in E7; lia].
  destruct (qe s !! 1%nat) eqn:E8; [|apply lookup_ge_None in E8; lia].
  eexists. split; [reflexivity|].
  rewrite !length_app. simpl length. rewrite Lsegs, Lpts, !length_seq.
  unfold nq. lia.
Qed.

(** [cb_draw] when every part of it can be drawn. *)
Lemma cb_draw_run (s : State) bb view start ws goal trj hs :
  view_bounds s = Some bb -> draw_view bb = Some view ->
  Robot_draw (rstart s) = Some start ->
  mapM Robot_draw (robots s) = Some ws ->
  Robot_draw (rend s) = Some goal ->
  draw_trajectory s = Some trj ->
  mapM (draw_handle (obs s)) (seq 0 (cols (obs s))) = Some hs ->
  cb_draw s
  = (Ok (view :: start ++ concat ws ++ goal ++ trj ++ concat hs), s).
Proof.
  intros E1 E2 E3 E4 E5 E6 E7. unfold cb_draw, bind, get.
  rewrite E1. simpl. rewrite E2. simpl. rewrite E3. simpl.
  rewrite E4. simpl. rewrite E5. simpl. rewrite E6. simpl.
  rewrite E7. reflexivity.
Qed.

Lemma cb_draw_needs_bounds (s : State) (cmds : list GfxCmd) :
  fst (cb_draw s) = Ok cmds -> is_Some (view_bounds s).
Proof.
  unfold cb_draw, bind, get.
  destruct (view_bounds s); [eauto | discriminate].
Qed.

Lemma lookup_one_length (v : Vector) (x : float) :
  v !! 1%nat = Some x -> (2 <= length v)%nat.
Proof. intros H. apply lookup_lt_Some in H. lia. Qed.

(** A failure of [cb_draw] is a failed range assertion. *)
Lemma cb_draw_fails_by_assertion (s : State) (err : Error) :
  fst (cb_draw s) = Fail err -> err = EigenAssert.
Proof.
  unfold cb_draw, bind, get.
  destruct (view_bounds s) as [bb|]; simpl; [|congruence].
  destruct (draw_view bb); simpl; [|congruence].
  destruct (Robot_draw (rstart s)); simpl; [|congruence].
  destruct (mapM Robot_draw (robots s)); simpl; [|congruence].
  destruct (Robot_draw (rend s)); simpl; [|congruence].
  destruct (draw_trajectory s); simpl; [|congruence].
  destruct (mapM (draw_handle (obs s)) (seq 0 (cols (obs s)))); simpl;
    [discriminate | congruence].
Qed.

(** What [cb_draw] reads when it returns. *)
Lemma cb_draw_needs_sizes (s : State) (cmds : list GfxCmd) :
  fst (cb_draw s) = Ok cmds ->
  (2 <= length (qs s))%nat /\ (2 <= length (qe s))%nat
  /\ (nq * cdim <= length (xi s))%nat.
Proof.
  intros Hok. destruct (cb_draw_needs_bounds s cmds Hok) as [[bmin bmax] E].
  destruct (view_axes_covers s (seq 0 2) (qs s, qs s) (bmin, bmax) E)
    as (Haxes & _ & Hl1 & _).
  destruct (Haxes 1%nat) as ((v & Ev & Hv) & Hw); [apply in_seq; lia|].
  destruct Hv as (lo & hi & Hlo & _). simpl in Hlo, Hl1.
  destruct (Hw (nq - 1)%nat) as (w & Ew & _); [unfold nq; lia|].
  split; [rewrite <- Hl1; now apply (lookup_one_length bmin lo)|].
  split; [now apply (lookup_one_length (qe s) v)|].
  apply lookup_lt_Some in Ew. unfold nq, cdim in *. simpl in Ew. lia.
Qed.

(** What [cb_draw] draws when all it reads is there. *)
Lemma cb_draw_draws (s : State) :
  robots_drawable s -> obstacle_matrix (obs s) ->
  (2 <= length (qs s))%nat -> (2 <= length (qe s))%nat ->
  (nq * cdim <= length (xi s))%nat ->
  exists bmin bmax lo0 lo1 hi0 hi1 rest,
    view_bounds s = Some (bmin, bmax)
    /\ bmin !! 0%nat = Some lo0 /\ bmin !! 1%nat = Some lo1
    /\ bmax !! 0%nat = Some hi0 /\ bmax !! 1%nat = Some hi1
    /\ cb_draw s
       = (Ok (gfx_set_view (PrimFloat.sub lo0 2%float)
                (PrimFloat.sub lo1 2%float)
                (PrimFloat.add hi0 2%float)
                (PrimFloat.add hi1 2%float) :: rest), s)
    /\ length rest
       = (4 * (2 + length (robots s)) + (2 * nq + 7)
          + 2 * cols (obs s))%nat.
Proof.
  intros (Hr1 & Hr2 & Hr3) Hm Hs He Hx.
  destruct (view_axes_in_range s (seq 0 2) (qs s, qs s)) as [[bmin bmax] E].
  { intros ii Hin. apply in_seq in Hin. simpl.
    repeat split; try lia. intros jj Hjj. unfold nq, cdim in *. lia. }
  destruct (view_axes_covers s (seq 0 2) (qs s, qs s) (bmin, bmax) E)
    as (_ & _ & Hl1 & Hl2).
  simpl in Hl1, Hl2.
  destruct (bmin !! 0%nat) as [lo0|] eqn:E0; [|apply lookup_ge_None in E0; lia].
  destruct (bmin !! 1%nat) as [lo1|] eqn:E1; [|apply lookup_ge_None in E1; lia].
  destruct (bmax !! 0%nat) as [hi0|] eqn:E2; [|apply lookup_ge_None in E2; lia].
  destruct (bmax !! 1%nat) as [hi1|] eqn:E3; [|apply lookup_ge_None in E3; lia].
  destruct (Robot_draw_two_components _ Hr1) as [start Estart].
  destruct (Robot_draw_two_components _ Hr2) as [goal Egoal].
  destruct (draw_robots_total _ Hr3) as (ws & Ews & Lws).
  destruct (draw_trajectory_total s Hs He Hx) as (trj & Etrj & Ltrj).
  destruct (draw_handles_total _ Hm) as (hs & Ehs & Lhs).
  exists bmin, bmax, lo0, lo1, hi0, hi1,
    (start ++ concat ws ++ goal ++ trj ++ concat hs).
  split; [exact E|]. repeat (split; [assumption|]).
  split.
  - apply (cb_draw_run s (bmin, bmax)); try assumption.
    unfold draw_view. simpl. unfold Vector in *. rewrite E0, E1, E2, E3.
    reflexivity.
  - rewrite !length_app, Lws, Ltrj, Lhs.
    rewrite (Robot_draw_length _ _ Estart), (Robot_draw_length _ _ Egoal). lia.
Qed.

(** X16. [cb_draw] only reads: it leaves the state as it is.  With robots of
    two components and an obstacle matrix, it returns exactly when start and
    goal have at least two components and the trajectory at least
    [nq * cdim] coefficients; otherwise an access is out of range.  What it
    draws then starts with the view, two units wider than the bounds on
    every side, and consists of four calls per robot, [2 * nq + 7] calls
    for the trajectory and two per obstacle. *)
Theorem cb_draw_outcome (s : State) :
  robots_drawable s -> obstacle_matrix (obs s) ->
  snd (cb_draw s) = s
  /\ ((exists cmds, fst (cb_draw s) = Ok cmds) <->
      (2 <= length (qs s))%nat /\ (2 <= length (qe s))%nat
      /\ (nq * cdim <= length (xi s))%nat)
  /\ ((forall cmds, fst (cb_draw s) <> Ok cmds) ->
      fst (cb_draw s) = Fail EigenAssert)
  /\ (forall cmds, fst (cb_draw s) = Ok cmds ->
        exists bmin bmax lo0 lo1 hi0 hi1 rest,
          view_bounds s = Some (bmin, bmax)
          /\ bmin !! 0%nat = Some lo0 /\ bmin !! 1%nat = Some lo1
          /\ bmax !! 0%nat = Some hi0 /\ bmax !! 1%nat = Some hi1
          /\ cmds = gfx_set_view (PrimFloat.sub lo0 2%float)
                      (PrimFloat.sub lo1 2%float)
                      (PrimFloat.add hi0 2%float)
                      (PrimFloat.add hi1 2%float) :: rest
          /\ length cmds
             = (1 + 4 * (2 + length (robots s)) + (2 * nq + 7)
                + 2 * cols (obs s))%nat).
Proof.
  intros Hr Hm.
  pose proof (keeps_cb_draw (fun t => t) s) as Hsnd.
  pose proof (cb_draw_needs_sizes s) as Hneed.
  pose proof (cb_draw_draws s Hr Hm) as Hrun.
  split; [exact Hsnd|]. split.
  { split.
    - intros [cmds Hok]. exact (Hneed cmds Hok).
    - intros (Hs & He & Hx).
      destruct (Hrun Hs He Hx) as (? & ? & ? & ? & ? & ? & rest & _ & _ & _ & _ & _ & E & _).
      eexists. rewrite E. reflexivity. }
  split.
  { intros Hno. destruct (fst (cb_draw s)) as [cmds|err] eqn:E.
    - now destruct (Hno cmds).
    - now rewrite (cb_draw_fails_by_assertion s err E). }
  intros cmds Hok. destruct (Hneed cmds Hok) as (Hs & He & Hx).
  destruct (Hrun Hs He Hx)
    as (bmin & bmax & lo0 & lo1 & hi0 & hi1 & rest & E & E0 & E1 & E2 & E3 & Erun & Lrest).
  rewrite Erun in Hok. simpl in Hok. injection Hok as <-.
  exists bmin, bmax, lo0, lo1, hi0, hi1, rest.
  repeat (split; [assumption|]). split; [reflexivity|].
  simpl length. rewrite Lrest. lia.
Qed.

(** X17. The centre that a drag writes is not always the centre the press
    found, even when the pointer has not moved between press and drag: the
    offset is a rounded difference, and adding it back to the pointer can
    land one rounding step beside the old coordinate. *)
Theorem drag_in_place_can_move_the_obstacle :
  exists (s s1 s2 : State) (px py : float),
    grab_invariant s
    /\ column 0 (obs s) = Some [0.1%float; 0.1%float; 2%float]
    /\ for_break (seq 0 (cols (obs s))) (try_grab px py) s = (Ok tt, s1)
    /\ grabbed s1 = 0
    /\ drag px py s1 = (Ok tt, s2)
    /\ column 0 (obs s2)
       = Some [PrimFloat.add px (PrimFloat.sub 0.1%float px);
               PrimFloat.add py (PrimFloat.sub 0.1%float py); 2%float]
    /\ column 0 (obs s2) <> column 0 (obs s).
Proof.
  exists (snd (add_obs 0.1%float 0.1%float 2%float initial_state)).
  eexists. eexists. exists 1%float, 1%float.
  split; [split; [split; [repeat constructor | now right]|];
          split; [simpl; lia | now left]|].
  split; [reflexivity|].
  split; [vm_compute; reflexivity|].
  split; [reflexivity|].
  split; [vm_compute; reflexivity|].
  split; [vm_compute; reflexivity|].
  vm_compute. discriminate.
Qed.

(** The robots stay drawable through any run of the event loop. *)
Lemma event_loop_robots_drawable (es : list Event) :
  preserves robots_drawable (event_loop es).
Proof.
  induction es as [|e rest IH]; simpl.
  - apply preserves_ret.
  - apply preserves_bind; [apply preserves_handle_robots | intros _; exact IH].
Qed.

(** X14. Mouse events never fail.  In a run of the event loop from a state
    that satisfies the grab invariant and has drawable robots, when the loop
    fails, the events before the failing one have all returned, and the
    callback that failed is an idle tick outside [PAUSE] or a redraw.  A
    redraw fails by a range assertion and leaves the state as it found it,
    and it fails only when start, goal or trajectory are shorter than what
    it reads. *)
Theorem event_loop_fails_at_idle_or_draw (es : list Event) (s0 : State)
    (err : Error) :
  grab_invariant s0 -> robots_drawable s0 ->
  fst (event_loop es s0) = Fail err ->
  exists es1 e es2 s1,
    es = es1 ++ e :: es2
    /\ event_loop es1 s0 = (Ok tt, s1)
    /\ handle e s1 = (Fail err, snd (event_loop es s0))
    /\ ((e = Idle /\ state s1 <> PAUSE)
        \/ (e = Draw /\ err = EigenAssert /\ snd (event_loop es s0) = s1
            /\ ~ ((2 <= length (qs s1))%nat /\ (2 <= length (qe s1))%nat
                  /\ (nq * cdim <= length (xi s1))%nat))).
Proof.
  revert s0. induction es as [|e rest IH]; intros s0 Hinv Hrob E; [discriminate|].
  simpl in E |- *. unfold bind in E |- *.
  destruct (handle_invariant e s0 Hinv) as (Hinv1 & _).
  pose proof (preserves_handle_robots e s0 Hrob) as Hrob1.
  destruct (handle e s0) as [[[]|err'] s1] eqn:Ee; simpl in *.
  - destruct (IH s1 Hinv1 Hrob1 E) as (es1 & e1 & es2 & s2 & -> & E1 & Ef & Hwhich).
    exists (e :: es1), e1, es2, s2. split; [reflexivity|].
    split; [simpl; unfold bind; now rewrite Ee|]. split; [exact Ef | exact Hwhich].
  - injection E as ->. exists [], e, rest, s0.
    split; [reflexivity|]. split; [reflexivity|]. split; [exact Ee|].
    destruct e as [| |px py flags].
    + left. split; [reflexivity|].
      intros Hp. simpl in Ee. rewrite (cb_idle_pause s0 Hp) in Ee. discriminate.
    + right. split; [reflexivity|].
      pose proof (handle_Draw s0) as Hsame. rewrite Ee in Hsame. simpl in Hsame.
      simpl in Ee. unfold bind in Ee.
      destruct (cb_draw s0) as [[cmds|err0] t] eqn:Ed; [discriminate|].
      injection Ee as -> _.
      split; [apply (cb_draw_fails_by_assertion s0); now rewrite Ed|].
      split; [exact Hsame|].
      intros (Hs & He & Hx). destruct Hinv as (Hm & _).
      destruct (cb_draw_draws s0 Hrob Hm Hs He Hx)
        as (? & ? & ? & ? & ? & ? & ? & _ & _ & _ & _ & _ & Erun & _).
      rewrite Erun in Ed. discriminate.
    + simpl in Ee.
      destruct (cb_mouse_invariant px py flags s0 Hinv) as (s' & E' & _).
      rewrite E' in Ee. discriminate.
Qed.

End Shell.

(** * The theorems at concrete inputs *)

(** The flags are taken as [MOUSE_PRESS = 1], [MOUSE_RELEASE = 2],
    [MOUSE_DRAG = 4] and [MOUSE_B3 = 32]; the optimizer runs with step size
    2, weight 1, margin 1, a zero boundary vector and the identity for a
    solver.  The state is the one [main] has set up: start (-5, -5), goal
    (7, 7) and the obstacles (3, 0, 2) and (0, 3, 2). *)

Lemma add_obs_appends_one_column_witness :
  exists s',
    add_obs 1%float 4%float 2%float (snd (main_setup initial_state)) = (Ok tt, s')
    /\ cols (obs s') = 3%nat
    /\ column 2 (obs s') = Some [1%float; 4%float; 2%float]
    /\ column 0 (obs s') = Some [3%float; 0%float; 2%float]
    /\ column 1 (obs s') = Some [0%float; 3%float; 2%float].
Proof.
  destruct (add_obs_appends_one_column 1%float 4%float 2%float
              (snd (main_setup initial_state)))
    as (s' & Hrun & Hcols & Hlast & Hold & _).
  - split; [repeat constructor | now right].
  - exists s'. split; [exact Hrun|]. split; [exact Hcols|].
    rewrite Hcols in Hlast. split; [exact Hlast|].
    split; [rewrite (Hold 0%nat) | rewrite (Hold 1%nat)];
      first [reflexivity | simpl; unfold cols; simpl; lia].
Defined.

Lemma Robot_update_checks_dimension_witness :
  Robot_update [1%float; 2%float; 3%float] new_Robot
    = (Fail (Errx_Robot_update 3), new_Robot)
  /\ Robot_update [1%float; 2%float] new_Robot
    = (Ok tt, mkRobot [1%float; 2%float]).
Proof.
  destruct (Robot_update_checks_dimension [1%float; 2%float; 3%float] new_Robot)
    as (_ & Hbad & _).
  destruct (Robot_update_checks_dimension [1%float; 2%float] new_Robot)
    as (_ & _ & Hgood).
  split.
  - apply Hbad. simpl. lia.
  - apply Hgood. reflexivity.
Defined.

Lemma run_chomp_failures_witness :
  fst (run_chomp 2%float 1%float 1%float (fun cd n _ _ => vzero (n * cd))
         (fun _ g => g) 2 20 (snd (main_setup initial_state)))
    = Fail DimensionError
  /\ fst (run_chomp 2%float 1%float 1%float (fun cd n _ _ => vzero (n * cd))
            (fun _ g => g) 2 0 (snd (main_setup initial_state)))
     = Fail SingularMetricError.
Proof.
  split.
  - destruct (run_chomp_failures 2%float 1%float 1%float
                (fun cd n _ _ => vzero (n * cd)) (fun _ g => g) 2 20
                (snd (main_setup initial_state))) as (_ & Hempty & _).
    apply Hempty; [reflexivity | lia | lia].
  - destruct (run_chomp_failures 2%float 1%float 1%float
                (fun cd n _ _ => vzero (n * cd)) (fun _ g => g) 2 0
                (snd (main_setup initial_state))) as (_ & _ & _ & _ & Hzero & _).
    apply Hzero; reflexivity.
Defined.

Lemma cb_idle_invokes_unless_paused_witness :
  cb_idle 2%float 1%float 1%float (fun cd n _ _ => vzero (n * cd)) (fun _ g => g)
    (snd (main_setup initial_state))
    = (Ok tt, snd (main_setup initial_state))
  /\ calls (chomp (snd (cb_idle 2%float 1%float 1%float
                          (fun cd n _ _ => vzero (n * cd)) (fun _ g => g)
                          (set_state RUN (snd (main_setup initial_state))))))
     = 1%nat.
Proof.
  split.
  - destruct (cb_idle_invokes_unless_paused 2%float 1%float 1%float
                (fun cd n _ _ => vzero (n * cd)) (fun _ g => g)
                (snd (main_setup initial_state))) as (Hpause & _).
    apply Hpause. reflexivity.
  - destruct (cb_idle_invokes_unless_paused 2%float 1%float 1%float
                (fun cd n _ _ => vzero (n * cd)) (fun _ g => g)
                (set_state RUN (snd (main_setup initial_state))))
      as (_ & _ & Hrun & _).
    apply Hrun. simpl. discriminate.
Defined.

(** The state [main] has set up satisfies the grab invariant. *)
Lemma main_setup_grab_invariant : grab_invariant (snd (main_setup initial_state)).
Proof.
  split; [split; [repeat constructor | now right]|].
  split; [simpl; lia | now left].
Qed.

Lemma drag_moves_only_the_centre_witness :
  exists s',
    cb_mouse 1 2 4 32 4%float 1%float 4
      (set_grab_offset [0.5%float; (-0.5)%float]
         (set_grabbed 0 (snd (main_setup initial_state))))
    = (Ok tt, s')
    /\ column 0 (obs s') = Some [4.5%float; 0.5%float; 2%float]
    /\ column 1 (obs s') = Some [0%float; 3%float; 2%float].
Proof.
  destruct (drag_moves_only_the_centre 1 2 4 32 2%float 1%float 1%float
              (fun cd n _ _ => vzero (n * cd)) (fun _ g => g)
              4%float 1%float 4
              (set_grab_offset [0.5%float; (-0.5)%float]
                 (set_grabbed 0 (snd (main_setup initial_state)))))
    as (s' & E & _ & _ & _ & Hother & Hmoved & _).
  - split; [split; [repeat constructor | now right]|].
    split; [simpl; lia | right; simpl; unfold cols; simpl; lia].
  - reflexivity.
  - exists s'. split; [exact E|]. split.
    + destruct Hmoved as (x & y & r & go0 & go1 & rest & Hc & Hgo & Hc').
      * simpl. discriminate.
      * simpl in Hc, Hgo. injection Hc as <- <- <-. injection Hgo as <- <- <-.
        exact Hc'.
    + rewrite (Hother 1%nat); [reflexivity | simpl; lia].
Defined.

Lemma only_right_release_adds_obstacle_witness :
  cols (obs (snd (cb_mouse 1 2 4 32 1%float 4%float 34
                    (snd (main_setup initial_state))))) = 3%nat
  /\ column 2 (obs (snd (cb_mouse 1 2 4 32 1%float 4%float 34
                           (snd (main_setup initial_state)))))
     = Some [1%float; 4%float; 2%float]
  /\ cols (obs (snd (cb_mouse 1 2 4 32 1%float 4%float 2
                       (snd (main_setup initial_state))))) = 2%nat.
Proof.
  destruct (only_right_release_adds_obstacle 1 2 4 32 2%float 1%float 1%float
              (fun cd n _ _ => vzero (n * cd)) (fun _ g => g)
              1%float 4%float 34 (snd (main_setup initial_state))
              main_setup_grab_invariant) as (_ & Hadd & _).
  destruct (Hadd eq_refl) as (_ & Hc & Hlast & _).
  destruct (only_right_release_adds_obstacle 1 2 4 32 2%float 1%float 1%float
              (fun cd n _ _ => vzero (n * cd)) (fun _ g => g)
              1%float 4%float 2 (snd (main_setup initial_state))
              main_setup_grab_invariant) as (_ & _ & Hkeep & _).
  split; [exact Hc|]. split; [exact Hlast|]. exact (Hkeep eq_refl).
Defined.

Lemma drag_writes_only_what_a_press_grabbed_witness :
  exists s',
    cb_mouse 1 2 4 32 4%float 1%float 4
      (snd (event_loop 1 2 4 32 2%float 1%float 1%float
              (fun cd n _ _ => vzero (n * cd)) (fun _ g => g)
              [Mouse 2.5%float 0.5%float 1]
              (snd (main_before_loop 2%float 1%float 1%float
                      (fun cd n _ _ => vzero (n * cd)) (fun _ g => g)
                      initial_state))))
    = (Ok tt, s')
    /\ cols (obs s') = 2%nat.
Proof.
  destruct (main_before_loop_grab_invariant 2%float 1%float 1%float
              (fun cd n _ _ => vzero (n * cd)) (fun _ g => g))
    as (Hinv & Hg & _).
  destruct (drag_writes_only_what_a_press_grabbed 1 2 4 32 2%float 1%float 1%float
              (fun cd n _ _ => vzero (n * cd)) (fun _ g => g)
              [Mouse 2.5%float 0.5%float 1]
              (snd (main_before_loop 2%float 1%float 1%float
                      (fun cd n _ _ => vzero (n * cd)) (fun _ g => g)
                      initial_state))
              (snd (event_loop 1 2 4 32 2%float 1%float 1%float
                      (fun cd n _ _ => vzero (n * cd)) (fun _ g => g)
                      [Mouse 2.5%float 0.5%float 1]
                      (snd (main_before_loop 2%float 1%float 1%float
                              (fun cd n _ _ => vzero (n * cd)) (fun _ g => g)
                              initial_state))))
              4%float 1%float 4 Hinv Hg)
    as (s' & E & _ & _ & Hc & _).
  - vm_compute. reflexivity.
  - reflexivity.
  - exists s'. split; [exact E | exact Hc].
Defined.

(** Two waypoints in the plane between (0, 0) and (3, 3), as in
    [run_chomp_one_step] below, where a call of the optimizer returns; the
    appended obstacle (1, 2, 2) holds the first waypoint. *)
Lemma append_changes_only_obstacle_gradient_witness :
  fst (run_chomp 2%float 1%float 1%float (fun cd n _ _ => vzero (n * cd))
       (fun _ g => g) 2 2
         (set_xi [1%float; 1%float; 2%float; 0.5%float]
         (set_qs [0%float; 0%float]
            (set_qe [3%float; 3%float] (snd (main_setup initial_state))))))
  = Ok tt
  /\ xi (snd (run_chomp 2%float 1%float 1%float (fun cd n _ _ => vzero (n * cd))
              (fun _ g => g) 2 2
                (snd (add_obs 1%float 2%float 2%float
                        (set_xi [1%float; 1%float; 2%float; 0.5%float]
                        (set_qs [0%float; 0%float]
                           (set_qe [3%float; 3%float] (snd (main_setup initial_state)))))))))
     = chomp_update 2%float 1%float (fun _ g => g) (smoothness_metric 2 2)
         [1%float; 1%float; 2%float; 0.5%float]
         (smooth_gradient (fun cd n _ _ => vzero (n * cd)) 2 2
            (smoothness_metric 2 2) [0%float; 0%float] [3%float; 3%float]
            [1%float; 1%float; 2%float; 0.5%float])
         (obstacle_gradient 1%float 2 2
            [(3%float, 0%float, 2%float); (0%float, 3%float, 2%float);
             (1%float, 2%float, 2%float)]
            [1%float; 1%float; 2%float; 0.5%float])
  /\ xi (snd (run_chomp 2%float 1%float 1%float (fun cd n _ _ => vzero (n * cd))
              (fun _ g => g) 2 2
                (snd (add_obs 1%float 2%float 2%float
                        (set_xi [1%float; 1%float; 2%float; 0.5%float]
                        (set_qs [0%float; 0%float]
                           (set_qe [3%float; 3%float] (snd (main_setup initial_state)))))))))
     <> xi (snd (run_chomp 2%float 1%float 1%float (fun cd n _ _ => vzero (n * cd))
                (fun _ g => g) 2 2
                   (set_xi [1%float; 1%float; 2%float; 0.5%float]
                   (set_qs [0%float; 0%float]
                      (set_qe [3%float; 3%float] (snd (main_setup initial_state)))))))
  /\ metric_cache
       (chomp (snd (run_chomp 2%float 1%float 1%float (fun cd n _ _ => vzero (n * cd))
                    (fun _ g => g) 2 2
                      (snd (add_obs 1%float 2%float 2%float
                              (set_xi [1%float; 1%float; 2%float; 0.5%float]
                              (set_qs [0%float; 0%float]
                                 (set_qe [3%float; 3%float] (snd (main_setup initial_state))))))))))
     = Some (2%nat, 2%nat, smoothness_metric 2 2).
Proof.
  destruct (append_changes_only_obstacle_gradient 2%float 1%float 1%float
              (fun cd n _ _ => vzero (n * cd)) (fun _ g => g)
              2 2 1%float 2%float 2%float
              (set_xi [1%float; 1%float; 2%float; 0.5%float]
              (set_qs [0%float; 0%float]
                 (set_qe [3%float; 3%float] (snd (main_setup initial_state))))))
    as (_ & _ & _ & _ & _ & _ & _ & _ & Hcache & Hrun & _).
  - split; [repeat constructor | now right].
  - assert (Hok : fst (run_chomp 2%float 1%float 1%float (fun cd n _ _ => vzero (n * cd))
                       (fun _ g => g) 2 2
                         (set_xi [1%float; 1%float; 2%float; 0.5%float]
                         (set_qs [0%float; 0%float]
                            (set_qe [3%float; 3%float] (snd (main_setup initial_state))))))
                  = Ok tt) by (vm_compute; reflexivity).
    destruct (Hrun Hok) as (Hmetric & _ & Hx1).
    split; [exact Hok|]. split; [exact Hx1|].
    split; [vm_compute; discriminate|].
    exact (eq_trans Hcache Hmetric).
Defined.

(** One call of the optimizer that returns: two waypoints in the plane
    between (0, 0) and (3, 3), the second of them inside the obstacle
    (3, 0, 2).  The call writes the trajectory and caches the metric. *)
Example run_chomp_one_step :
  let s := set_xi [1%float; 1%float; 2%float; 0.5%float]
             (set_qs [0%float; 0%float]
                (set_qe [3%float; 3%float] (snd (main_setup initial_state)))) in
  let r := run_chomp 2%float 1%float 1%float (fun cd n _ _ => vzero (n * cd))
             (fun _ g => g) 2 2 s in
  fst r = Ok tt
  /\ xi (snd r) <> xi s
  /\ length (xi (snd r)) = 4%nat
  /\ qs (snd r) = [0%float; 0%float] /\ qe (snd r) = [3%float; 3%float]
  /\ metric_cache (chomp (snd r)) = Some (2%nat, 2%nat, smoothness_metric 2 2).
Proof. vm_compute. repeat split; discriminate. Qed.

(** * The further theorems at concrete inputs *)

(** Flags, optimizer parameters and the state [main] has set up are as above;
    where a trajectory is needed, [xi] holds forty times 1.0. *)

Lemma add_all_obs_in_order_witness :
  exists s',
    add_all_obs [(3%float, 0%float, 2%float); (0%float, 3%float, 2%float)]
      initial_state = (Ok tt, s')
    /\ obstacles_of (obs s')
       = [(3%float, 0%float, 2%float); (0%float, 3%float, 2%float)].
Proof.
  destruct (add_all_obs_in_order
              [(3%float, 0%float, 2%float); (0%float, 3%float, 2%float)]
              initial_state)
    as (s' & E & _ & _ & _ & _ & Hnil).
  - split; [constructor | now left].
  - exists s'. split; [exact E | apply Hnil; reflexivity].
Defined.

Lemma update_robots_shows_trajectory_witness :
  exists s',
    update_robots (set_xi (replicate 40 1%float) (snd (main_setup initial_state)))
    = (Ok tt, s')
    /\ rstart s' = mkRobot [(-5)%float; (-5)%float]
    /\ rend s' = mkRobot [7%float; 7%float].
Proof.
  destruct (update_robots_shows_trajectory
              (set_xi (replicate 40 1%float) (snd (main_setup initial_state))))
    as (s' & E & Hs & He & _).
  - reflexivity.
  - reflexivity.
  - simpl. lia.
  - exists s'. split; [exact E|]. split; [exact Hs | exact He].
Defined.

Lemma idle_tick_shows_new_trajectory_witness :
  length (robots (snd (cb_idle 2%float 1%float 1%float
                         (fun cd n _ _ => vzero (n * cd)) (fun _ g => g)
                         (set_state RUN
                            (set_xi (replicate 40 1%float)
                               (snd (main_setup initial_state)))))))
  = nq.
Proof.
  destruct (idle_tick_shows_new_trajectory 2%float 1%float 1%float
              (fun cd n _ _ => vzero (n * cd)) (fun _ g => g)
              (set_state RUN
                 (set_xi (replicate 40 1%float) (snd (main_setup initial_state))))
              (snd (cb_idle 2%float 1%float 1%float
                      (fun cd n _ _ => vzero (n * cd)) (fun _ g => g)
                      (set_state RUN
                         (set_xi (replicate 40 1%float)
                            (snd (main_setup initial_state)))))))
    as (_ & _ & _ & Hlen & _).
  - simpl. discriminate.
  - vm_compute. reflexivity.
  - exact Hlen.
Defined.

Lemma paused_state_is_quiet_witness :
  event_loop 1 2 4 32 2%float 1%float 1%float
    (fun cd n _ _ => vzero (n * cd)) (fun _ g => g)
    [Idle; Mouse 9%float 9%float 1; Mouse 0%float 0%float 4;
     Mouse 0%float 0%float 2]
    (snd (main_setup initial_state))
  = (Ok tt, snd (main_setup initial_state)).
Proof.
  apply (paused_state_is_quiet 1 2 4 32 2%float 1%float 1%float
           (fun cd n _ _ => vzero (n * cd)) (fun _ g => g)).
  - exact main_setup_grab_invariant.
  - reflexivity.
  - reflexivity.
  - constructor; [exact I|].
    constructor; [split; [reflexivity | intros _; vm_compute; reflexivity]|].
    constructor; [split; [reflexivity | intros H; discriminate H]|].
    constructor; [split; [reflexivity | intros H; discriminate H]|].
    constructor.
Defined.

Lemma optimizer_runs_while_grabbed_witness :
  calls (chomp (snd (cb_idle 2%float 1%float 1%float
                       (fun cd n _ _ => vzero (n * cd)) (fun _ g => g)
                       (snd (event_loop 1 2 4 32 2%float 1%float 1%float
                               (fun cd n _ _ => vzero (n * cd)) (fun _ g => g)
                               [Mouse 2.5%float 0.5%float 1]
                               (snd (main_setup initial_state)))))))
  = 1%nat.
Proof.
  destruct (optimizer_runs_while_grabbed 1 2 4 32 2%float 1%float 1%float
              (fun cd n _ _ => vzero (n * cd)) (fun _ g => g)
              [Mouse 2.5%float 0.5%float 1]
              (snd (main_setup initial_state))
              (snd (event_loop 1 2 4 32 2%float 1%float 1%float
                      (fun cd n _ _ => vzero (n * cd)) (fun _ g => g)
                      [Mouse 2.5%float 0.5%float 1]
                      (snd (main_setup initial_state)))))
    as (_ & _ & Hrun).
  - exact main_setup_grab_invariant.
  - reflexivity.
  - reflexivity.
  - vm_compute. reflexivity.
  - vm_compute. reflexivity.
  - destruct Hrun as [_ Hcalls]; [vm_compute; discriminate | exact Hcalls].
Defined.

Lemma obstacle_count_after_run_witness :
  cols (obs (snd (event_loop 1 2 4 32 2%float 1%float 1%float
                    (fun cd n _ _ => vzero (n * cd)) (fun _ g => g)
                    [Mouse 1%float 4%float 34; Idle; Mouse 0%float 0%float 34]
                    (snd (main_setup initial_state)))))
  = 4%nat.
Proof.
  rewrite (obstacle_count_after_run 1 2 4 32 2%float 1%float 1%float
             (fun cd n _ _ => vzero (n * cd)) (fun _ g => g)
             [Mouse 1%float 4%float 34; Idle; Mouse 0%float 0%float 34]
             (snd (main_setup initial_state))
             (snd (event_loop 1 2 4 32 2%float 1%float 1%float
                     (fun cd n _ _ => vzero (n * cd)) (fun _ g => g)
                     [Mouse 1%float 4%float 34; Idle; Mouse 0%float 0%float 34]
                     (snd (main_setup initial_state))))).
  - reflexivity.
  - exact main_setup_grab_invariant.
  - vm_compute. reflexivity.
Defined.

Lemma press_then_drag_witness :
  exists s1 s2,
    cb_mouse 1 2 4 32 2.5%float 0.5%float 1 (snd (main_setup initial_state))
    = (Ok tt, s1)
    /\ cb_mouse 1 2 4 32 4%float 1%float 4 s1 = (Ok tt, s2)
    /\ column 0 (obs s2) = Some [4.5%float; 0.5%float; 2%float].
Proof.
  destruct (press_then_drag 1 2 4 32 2.5%float 0.5%float 4%float 1%float 1 4
              (snd (main_setup initial_state)) 0
              [3%float; 0%float; 2%float])
    as (x & y & r & s1 & s2 & Ec & E1 & E2 & Hc & _).
  - exact main_setup_grab_invariant.
  - vm_compute. reflexivity.
  - reflexivity.
  - reflexivity.
  - vm_compute. reflexivity.
  - injection Ec as <- <- <-. exists s1, s2.
    split; [exact E1|]. split; [exact E2 | exact Hc].
Defined.

Lemma right_release_keeps_the_grab_witness :
  exists m,
    cb_mouse 1 2 4 32 1%float 4%float 34
      (set_grab_offset [0.5%float; (-0.5)%float]
         (set_grabbed 0 (snd (main_setup initial_state))))
    = (Ok tt,
       set_obs m (set_grab_offset [0.5%float; (-0.5)%float]
                    (set_grabbed 0 (snd (main_setup initial_state)))))
    /\ cols m = 3%nat.
Proof.
  destruct (right_release_keeps_the_grab 1 2 4 32 1%float 4%float 0%float 0%float
              34 4
              (set_grab_offset [0.5%float; (-0.5)%float]
                 (set_grabbed 0 (snd (main_setup initial_state)))))
    as (m & E & Hc & _).
  - reflexivity.
  - exists m. split; [exact E | exact Hc].
Defined.

Lemma event_loop_fails_at_idle_or_draw_witness :
  exists es1 e es2 s1,
    [Idle; Draw; Mouse 0%float 0%float 34] = es1 ++ e :: es2
    /\ event_loop 1 2 4 32 2%float 1%float 1%float
         (fun cd n _ _ => vzero (n * cd)) (fun _ g => g)
         es1 (snd (main_setup initial_state)) = (Ok tt, s1)
    /\ ((e = Idle /\ state s1 <> PAUSE)
        \/ (e = Draw
            /\ ~ ((2 <= length (qs s1))%nat /\ (2 <= length (qe s1))%nat
                  /\ (nq * cdim <= length (xi s1))%nat))).
Proof.
  destruct (event_loop_fails_at_idle_or_draw 1 2 4 32 2%float 1%float 1%float
              (fun cd n _ _ => vzero (n * cd)) (fun _ g => g)
              [Idle; Draw; Mouse 0%float 0%float 34]
              (snd (main_setup initial_state)) EigenAssert)
    as (es1 & e & es2 & s1 & Hes & E1 & _ & Hwhich).
  - exact main_setup_grab_invariant.
  - split; [reflexivity|]. split; [reflexivity | constructor].
  - vm_compute. reflexivity.
  - exists es1, e, es2, s1. split; [exact Hes|]. split; [exact E1|].
    destruct Hwhich as [Hidle | (Hdraw & _ & _ & Hshort)];
      [left; exact Hidle | right; split; [exact Hdraw | exact Hshort]].
Defined.

Lemma view_bounds_cover_trajectory_witness :
  covers 0 7%float ([(-5)%float; (-5)%float], [7%float; 7%float])
  /\ covers 1 1%float ([(-5)%float; (-5)%float], [7%float; 7%float]).
Proof.
  destruct (view_bounds_cover_trajectory
              (set_xi (replicate 40 1%float) (snd (main_setup initial_state)))
              [(-5)%float; (-5)%float] [7%float; 7%float])
    as (_ & _ & Hcov).
  - vm_compute. reflexivity.
  - split.
    + destruct (Hcov 0%nat ltac:(lia)) as (_ & (v & Ev & Hv) & _).
      simpl in Ev. injection Ev as <-. exact Hv.
    + destruct (Hcov 1%nat ltac:(lia)) as (_ & _ & Hw).
      destruct (Hw 3%nat ltac:(unfold nq; lia)) as (v & Ev & Hv).
      simpl in Ev. injection Ev as <-. exact Hv.
Defined.

Lemma cb_draw_outcome_witness :
  exists cmds,
    fst (cb_draw (set_xi (replicate 40 1%float) (snd (main_setup initial_state))))
    = Ok cmds.
Proof.
  destruct (cb_draw_outcome
              (set_xi (replicate 40 1%float) (snd (main_setup initial_state))))
    as (_ & Hiff & _).
  - split; [reflexivity|]. split; [reflexivity | constructor].
  - split; [repeat constructor | now right].
  - apply Hiff. simpl. lia.
Defined.
